(** * agwb: register / bitfield accessor layer and its demo bus interface

    A shallow embedding of [src/targets/python/agwb/agwb.py].

    Python integers are unbounded, so every word is a [Z] and the bit
    operators are [Z.land], [Z.lor], [Z.lxor], [Z.shiftl], [Z.shiftr].
    Python exceptions are an explicit error result; a raising call keeps
    the state it had reached when the exception left it.

    The accessor classes ([_BitFieldAccess], [_Register], [Vector],
    [Block]) are written against an interface of bus methods, as in the
    source, and [DemoIface] is one implementation of it: its attributes,
    the futures it has handed out, the global register file and the lines
    it prints make up its state, and the closures it queues are a data
    type with one constructor per lambda. *)

From Stdlib Require Import ZArith Lia Bool.
From stdpp Require Import base list strings.

Local Open Scope Z_scope.

(** * Part I: the program *)

(** ** Python-level plumbing *)

(** The exceptions the module can raise.  Those of the [raise Exception(..)]
    sites are named after what they report; the others are the
    interpreter's own. *)
Inductive error : Type :=
| OutOfRange        (* "Value doesn't fit in the bitfield" *)
| ReadOnly          (* "Status register at .. can't be written" *)
| IndexOutOfBounds  (* "Access outside the vector" *)
| IdentityMismatch  (* ".. has ID/VER .., read ID/VER .." *)
| Unresolved        (* "val not set after dispatch!" *)
| ValueError        (* negative shift count *)
| KeyError          (* dictionary lookup miss *)
| IndexError        (* list index out of range *)
| TypeError
| AttributeError
| RecursionError.

Inductive res (A : Type) : Type :=
| Ok (a : A)
| Err (e : error).
Arguments Ok {A} a.
Arguments Err {A} e.

(** State-and-exception monad: the state comes back also when the call
    raises. *)
Definition M (St A : Type) : Type := St -> St * res A.

Definition ret {St A} (a : A) : M St A := fun s => (s, Ok a).
Definition raise {St A} (e : error) : M St A := fun s => (s, Err e).
Definition bind {St A B} (m : M St A) (k : A -> M St B) : M St B :=
  fun s => match m s with
           | (s', Ok a) => k a s'
           | (s', Err e) => (s', Err e)
           end.

Declare Scope py_scope.
Delimit Scope py_scope with py.
Notation "x <- c1 ;; c2" := (bind c1 (fun x => c2))
  (at level 100, c1 at next level, right associativity) : py_scope.
Notation "c1 ;;; c2" := (bind c1 (fun _ => c2))
  (at level 100, right associativity) : py_scope.

(** A value handed to a bus write: the accessor layer passes whatever
    the caller gave it, an integer or (through [write_fifo]) a sequence. *)
Inductive pyval : Type :=
| VInt (z : Z)
| VList (l : list Z).

(** Python list indexing [l[i]]: negative indices count from the end,
    anything outside [-len, len) raises IndexError. *)
Definition index_of (len : nat) (i : Z) : option nat :=
  let n := Z.of_nat len in
  if 0 <=? i then (if i <? n then Some (Z.to_nat i) else None)
  else if - n <=? i then Some (Z.to_nat (n + i)) else None.

Definition py_index {A} (l : list A) (i : Z) : option nat :=
  index_of (length l) i.

(** ** BitField *)

Record BitField : Type := MkBitField {
  lsb : Z;
  msb : Z;
  sign_mask : Z;
  vmin : Z;
  vmax : Z;
  mask : Z
}.

(** [1 << n]; Python raises ValueError on a negative count. *)
Definition one_shl (n : Z) : res Z :=
  if n <? 0 then Err ValueError else Ok (Z.shiftl 1 n).

(** [BitField.__init__(msb, lsb, is_signed)]. *)
Definition BitField_init (msb lsb : Z) (is_signed : bool) : res BitField :=
  let range :=
    if is_signed then
      match one_shl (msb - lsb) with
      | Ok sm => Ok (sm, - sm, sm - 1)
      | Err e => Err e
      end
    else
      match one_shl (msb - lsb + 1) with
      | Ok p => Ok (0, 0, p - 1)
      | Err e => Err e
      end in
  match range with
  | Err e => Err e
  | Ok (sm, lo, hi) =>
    match one_shl (msb + 1) with
    | Err e => Err e
    | Ok hi_bits =>
      match one_shl lsb with
      | Err e => Err e
      | Ok lo_bits =>
        Ok {| lsb := lsb; msb := msb; sign_mask := sm; vmin := lo; vmax := hi;
              mask := Z.lxor (hi_bits - 1) (lo_bits - 1) |}
      end
    end
  end.

(** The range test that opens [_BitFieldAccess.write] and [writex]. *)
Definition out_of_range (bf : BitField) (value : Z) : bool :=
  (value <? vmin bf) || (vmax bf <? value).

(** "If the bitfield is signed, convert the negative values" (the line
    [write] prints with the converted value is left out). *)
Definition wrap_negative (bf : BitField) (value : Z) : Z :=
  if sign_mask bf =? 0 then value
  else if value <? 0 then value + Z.shiftl (sign_mask bf) 1 else value.

(** The register-word arithmetic of [_BitFieldAccess.write]:
    [rval |= mask; rval ^= mask; value <<= lsb; value &= mask; rval |= value]. *)
Definition insert_field (bf : BitField) (rval value : Z) : Z :=
  let rval := Z.lor rval (mask bf) in
  let rval := Z.lxor rval (mask bf) in
  let value := Z.shiftl value (lsb bf) in
  let value := Z.land value (mask bf) in
  Z.lor rval value.

(** The arithmetic of [_BitFieldAccess.read] (and of [_BitFieldFuture]). *)
Definition decode (bf : BitField) (rval : Z) : Z :=
  let rval := Z.land rval (mask bf) in
  let rval := Z.shiftr rval (lsb bf) in
  if sign_mask bf =? 0 then rval
  else if Z.land rval (sign_mask bf) =? 0 then rval
  else rval - Z.shiftl (sign_mask bf) 1.

(** What [_BitFieldAccess.write] computes from the word it has read. *)
Definition encode (bf : BitField) (value raw : Z) : res Z :=
  if out_of_range bf value then Err OutOfRange
  else Ok (insert_field bf raw (wrap_negative bf value)).

(** What the constructor guarantees about a descriptor it returns. *)
Record BitField_wf (bf : BitField) (is_signed : bool) : Prop := {
  wf_lsb : 0 <= lsb bf;
  wf_msb : lsb bf - 1 <= msb bf;
  wf_mask : mask bf = Z.lxor (Z.ones (msb bf + 1)) (Z.ones (lsb bf));
  wf_signed : is_signed = true ->
    lsb bf <= msb bf /\ sign_mask bf = 2 ^ (msb bf - lsb bf) /\
    vmin bf = - 2 ^ (msb bf - lsb bf) /\ vmax bf = 2 ^ (msb bf - lsb bf) - 1;
  wf_unsigned : is_signed = false ->
    sign_mask bf = 0 /\ vmin bf = 0 /\ vmax bf = 2 ^ (msb bf - lsb bf + 1) - 1
}.

(** ** The bus capability

    The accessor classes only ever call methods of the [iface] object
    they were given.  The interface below lists the methods the module
    docstring asks for (plus the two bulk ones [_Register] forwards to)
    and the [val] attribute of the futures [readx] returns. *)
Class Iface (St : Type) : Type := {
  Future : Type;
  iface_read : Z -> M St Z;
  iface_write : Z -> pyval -> M St unit;
  iface_readx : Z -> M St Future;
  iface_writex : Z -> pyval -> M St unit;
  (** [rmw(addr=None, mask=0, val=0)] *)
  iface_rmw : option Z -> Z -> Z -> M St unit;
  iface_dispatch : M St unit;
  iface_read_fifo : Z -> Z -> M St (list Z);
  iface_write_fifo : Z -> list Z -> M St unit;
  future_val : Future -> M St Z
}.

(** A dictionary literal of the generated schema, in source order. *)
Definition dict (V : Type) : Type := list (string * V).

Fixpoint dict_get {V} (d : dict V) (k : string) : option V :=
  match d with
  | [] => None
  | (k', v) :: d' => if String.eqb k k' then Some v else dict_get d' k
  end.

Definition dict_keys {V} (d : dict V) : list string := map fst d.

(** ** Schema and accessor objects *)

Inductive RegClass : Type := ControlRegister | StatusRegister.

(** A class generated from [Block], with its class attributes, and the
    tuples of its [x__fields]: [(offset, (cls[, args]))] for one item,
    [(offset, nitems, (cls[, args]))] for a vector. *)
Inductive BlockDef : Type :=
| MkBlockDef (is_blackbox : bool) (size : Z) (id ver : Z)
             (fields : list (string * FieldInfo))
with FieldInfo : Type :=
| Single (off : Z) (margs : MArgs)
| Repeated (off : Z) (nitems : Z) (margs : MArgs)
with MArgs : Type :=
| MkMArgs (mclass : MClass) (args : option (dict BitField))
with MClass : Type :=
| RegisterClass (k : RegClass)
| BlockClass (b : BlockDef).

Definition x__is_blackbox (b : BlockDef) : bool :=
  match b with MkBlockDef bb _ _ _ _ => bb end.
Definition x__id (b : BlockDef) : Z :=
  match b with MkBlockDef _ _ i _ _ => i end.
Definition x__ver (b : BlockDef) : Z :=
  match b with MkBlockDef _ _ _ v _ => v end.
Definition x__fields (b : BlockDef) : dict FieldInfo :=
  match b with MkBlockDef _ _ _ _ f => f end.

(** [cls.x__size]: 1 for the register classes, the generated value for
    a block class. *)
Definition x__size (c : MClass) : Z :=
  match c with
  | RegisterClass _ => 1
  | BlockClass (MkBlockDef _ s _ _ _) => s
  end.

Record Register : Type := MkRegister {
  reg_class : RegClass;
  reg_base : Z;
  x__bfields : dict BitField
}.

Record Vector : Type := MkVector {
  vec_base : Z;
  vec_mclass : MClass;
  vec_args : option (dict BitField);
  nitems : Z
}.

Record BitFieldAccess : Type := MkBitFieldAccess {
  bfa_base : Z;
  x__bf : BitField
}.

Inductive Accessor : Type :=
| ABlock (cls : BlockDef) (base : Z)
| ARegister (r : Register)
| AVector (v : Vector).

Definition acc_base (a : Accessor) : Z :=
  match a with
  | ABlock _ b => b
  | ARegister r => reg_base r
  | AVector v => vec_base v
  end.

(** Does the accessor belong to class [c]? *)
Definition acc_instance_of (a : Accessor) (c : MClass) : Prop :=
  match a, c with
  | ABlock b _, BlockClass b' => b = b'
  | ARegister r, RegisterClass k => reg_class r = k
  | _, _ => False
  end.

(** [mclass(iface, base)] and [mclass(iface, base, args)].  A register
    takes its bitfield table as the optional argument (default [{}]);
    [Block.__init__] has no third parameter. *)
Definition construct (c : MClass) (base : Z) (args : option (dict BitField))
  : res Accessor :=
  match c, args with
  | RegisterClass k, None => Ok (ARegister (MkRegister k base []))
  | RegisterClass k, Some t => Ok (ARegister (MkRegister k base t))
  | BlockClass b, None => Ok (ABlock b base)
  | BlockClass _, Some _ => Err TypeError
  end.

(** [Vector.__getitem__]. *)
Definition Vector_getitem (v : Vector) (key : Z) : res Accessor :=
  if nitems v <=? key then Err IndexOutOfBounds
  else construct (vec_mclass v) (vec_base v + key * x__size (vec_mclass v)) (vec_args v).

(** [Block.__getattr__]; Python calls it for the names that are not
    attributes of the object already, which is every schema field. *)
Definition Block_getattr (cls : BlockDef) (base : Z) (name : string)
  : res Accessor :=
  match dict_get (x__fields cls) name with
  | None => Err KeyError
  | Some (Repeated off n (MkMArgs c a)) => Ok (AVector (MkVector (base + off) c a n))
  | Some (Single off (MkMArgs c a)) => construct c (base + off) a
  end.

(** [_Register.__getattr__]: a bitfield view of the register. *)
Definition Register_getattr (r : Register) (name : string) : res BitFieldAccess :=
  match dict_get (x__bfields r) name with
  | None => Err KeyError
  | Some bf => Ok (MkBitFieldAccess (reg_base r) bf)
  end.

Definition lift {St A} (r : res A) : M St A := fun s => (s, r).

Section Accessors.
Context {St : Type} `{Iface St}.
Local Open Scope py_scope.

(** *** _BitFieldAccess *)

Definition BitFieldAccess_read (a : BitFieldAccess) : M St Z :=
  rval <- iface_read (bfa_base a) ;;
  ret (decode (x__bf a) rval).

Definition BitFieldAccess_write (a : BitFieldAccess) (value : Z) : M St unit :=
  if out_of_range (x__bf a) value then raise OutOfRange
  else
    let value := wrap_negative (x__bf a) value in
    rval <- iface_read (bfa_base a) ;;
    iface_write (bfa_base a) (VInt (insert_field (x__bf a) rval value)).

Definition BitFieldAccess_readx (a : BitFieldAccess) : M St (Future * BitField) :=
  rval <- iface_readx (bfa_base a) ;;
  ret (rval, x__bf a).

(** [_BitFieldFuture.val] *)
Definition BitFieldFuture_val (f : Future * BitField) : M St Z :=
  rval <- future_val (fst f) ;;
  ret (decode (snd f) rval).

Definition BitFieldAccess_writex (a : BitFieldAccess) (value : Z) (now : bool)
  : M St unit :=
  if out_of_range (x__bf a) value then raise OutOfRange
  else
    let value := wrap_negative (x__bf a) value in
    let value := Z.shiftl value (lsb (x__bf a)) in
    iface_rmw (Some (bfa_base a)) (mask (x__bf a)) value ;;;
    if now then iface_rmw None 0 0 else ret tt.

(** *** _Register and StatusRegister *)

Definition Register_read (r : Register) : M St Z := iface_read (reg_base r).

Definition Register_readx (r : Register) : M St Future := iface_readx (reg_base r).

Definition Register_read_fifo (r : Register) (count : Z) : M St (list Z) :=
  iface_read_fifo (reg_base r) count.

Definition Register_write (r : Register) (value : pyval) : M St unit :=
  match reg_class r with
  | ControlRegister => iface_write (reg_base r) value
  | StatusRegister => raise ReadOnly
  end.

Definition Register_writex (r : Register) (value : pyval) : M St unit :=
  iface_writex (reg_base r) value.

Definition Register_write_fifo (r : Register) (values : list Z) : M St unit :=
  iface_write (reg_base r) (VList values).

Definition Register_rmw (r : Register) (mask value : Z) (now : bool) : M St unit :=
  iface_rmw (Some (reg_base r)) mask value ;;;
  if now then iface_rmw None 0 0 else ret tt.

(** [reg.<name>.write(value)]: attribute lookup, then the bitfield
    write. *)
Definition Register_bitfield_write (r : Register) (name : string) (value : Z)
  : M St unit :=
  a <- lift (Register_getattr r name) ;;
  BitFieldAccess_write a value.

(** *** Block *)

(** [obj.read()] on whatever a field resolves to.  Only registers have
    the method: a block answers the name through [__getattr__] (a field
    lookup, and a field object is not callable), a vector not at all. *)
Definition Accessor_read (a : Accessor) : M St Z :=
  match a with
  | ARegister r => Register_read r
  | ABlock cls base =>
    match Block_getattr cls base "read" with
    | Err e => raise e
    | Ok _ => raise TypeError
    end
  | AVector _ => raise AttributeError
  end.

Definition Block_verify_id (cls : BlockDef) (base : Z) : M St unit :=
  a <- lift (Block_getattr cls base "ID") ;;
  id <- Accessor_read a ;;
  if id =? x__id cls then ret tt else raise IdentityMismatch.

Definition Block_verify_ver (cls : BlockDef) (base : Z) : M St unit :=
  a <- lift (Block_getattr cls base "VER") ;;
  ver <- Accessor_read a ;;
  if ver =? x__ver cls then ret tt else raise IdentityMismatch.

(** The [for k in self.x__fields.keys()] loop: the field is resolved,
    and both branches of the [issubclass] test go on to the next key. *)
Fixpoint visit_fields (cls : BlockDef) (base : Z) (keys : list string) : M St unit :=
  match keys with
  | [] => ret tt
  | k :: keys' =>
    subblock <- lift (Block_getattr cls base k) ;;
    match subblock with
    | ABlock _ _ => visit_fields cls base keys'
    | _ => visit_fields cls base keys'
    end
  end.

Definition verify_id_and_version (cls : BlockDef) (base : Z) : M St unit :=
  visit_fields cls base (dict_keys (x__fields cls)) ;;;
  if x__is_blackbox cls then ret tt
  else (Block_verify_id cls base ;;; Block_verify_ver cls base).

End Accessors.

(** ** DemoIface: the emulated bus of the module's demo section *)

(** The closures appended to [self.opers], one constructor per lambda.
    Each closure captures locals that are not assigned again, so it holds
    their values at creation. *)
Inductive oper : Type :=
| OpWrite (addr : Z) (val : pyval)                (* lambda: self._write(addr, val) *)
| OpReadSet (df : nat) (addr : Z)                 (* lambda: df.set(self._read(addr)) *)
| OpRmw (odf : option nat) (waddr mask nval : Z). (* lambda: self._rmw(odf, waddr, mask, nval) *)

(** The lines the interface prints. *)
Inductive event : Type :=
| Reading (addr val : Z)
| Writing (val addr : Z)
| EmptyDispatch
| BeforeDispatch
| AfterDispatch.

(** The object's attributes, the [DI_future] objects it has created
    ([None]: not [done]; a future is named by its creation index), the
    global register file [rf] and the printed lines, oldest first. *)
Record DemoIface : Type := MkDemoIface {
  opers : list oper;
  rmw_df : option nat;
  rmw_addr : option Z;
  rmw_mask : Z;
  rmw_nval : Z;
  futures : list (option Z);
  rf : list Z;
  stdout : list event
}.

Definition set_opers (o : list oper) (s : DemoIface) : DemoIface :=
  MkDemoIface o (rmw_df s) (rmw_addr s) (rmw_mask s) (rmw_nval s)
              (futures s) (rf s) (stdout s).
Definition set_rmw_target (df : option nat) (a : option Z) (s : DemoIface) : DemoIface :=
  MkDemoIface (opers s) df a (rmw_mask s) (rmw_nval s)
              (futures s) (rf s) (stdout s).
Definition set_rmw_acc (m n : Z) (s : DemoIface) : DemoIface :=
  MkDemoIface (opers s) (rmw_df s) (rmw_addr s) m n
              (futures s) (rf s) (stdout s).
Definition set_futures (f : list (option Z)) (s : DemoIface) : DemoIface :=
  MkDemoIface (opers s) (rmw_df s) (rmw_addr s) (rmw_mask s) (rmw_nval s)
              f (rf s) (stdout s).
Definition set_rf (r : list Z) (s : DemoIface) : DemoIface :=
  MkDemoIface (opers s) (rmw_df s) (rmw_addr s) (rmw_mask s) (rmw_nval s)
              (futures s) r (stdout s).
Definition print (e : event) (s : DemoIface) : DemoIface :=
  MkDemoIface (opers s) (rmw_df s) (rmw_addr s) (rmw_mask s) (rmw_nval s)
              (futures s) (rf s) (stdout s ++ [e]).

(** [DemoIface()] over a register file. *)
Definition DemoIface_init (regs : list Z) : DemoIface :=
  MkDemoIface [] None None 0 0 [] regs [].

(** [rf = 1024 * [int(0),]] *)
Definition rf0 : list Z := replicate 1024 0.

(** [df.done] together with [df._val]. *)
Definition future_done (s : DemoIface) (df : nat) : option Z :=
  match futures s !! df with
  | Some (Some v) => Some v
  | _ => None
  end.

Module Demo.
Local Open Scope py_scope.

Definition _read (addr : Z) : M DemoIface Z := fun s =>
  match py_index (rf s) addr with
  | None => (s, Err IndexError)
  | Some i =>
    match rf s !! i with
    | None => (s, Err IndexError)
    | Some v => (print (Reading addr v) s, Ok v)
    end
  end.

(** [hex(val)] is evaluated for the printed line before anything else
    and raises on a sequence; the store comes after the line. *)
Definition _write (addr : Z) (val : pyval) : M DemoIface unit := fun s =>
  match val with
  | VList _ => (s, Err TypeError)
  | VInt v =>
    let s := print (Writing v addr) s in
    match py_index (rf s) addr with
    | None => (s, Err IndexError)
    | Some i => (set_rf (<[i := v]> (rf s)) s, Ok tt)
    end
  end.

(** [DI_future(self)] *)
Definition new_future : M DemoIface nat := fun s =>
  (set_futures (futures s ++ [None]) s, Ok (length (futures s))).

(** [df.set(val)] *)
Definition future_set (df : nat) (val : Z) : M DemoIface unit := fun s =>
  (set_futures (<[df := Some val]> (futures s)) s, Ok tt).

Definition append_oper (x : oper) : M DemoIface unit := fun s =>
  (set_opers (opers s ++ [x]) s, Ok tt).

(** "The real HW implemented RMW":
    [dval = df.val | mask; dval ^= mask; dval |= nval]. *)
Definition rmw_word (v mask nval : Z) : Z :=
  let dval := Z.lor v mask in
  let dval := Z.lxor dval mask in
  Z.lor dval nval.

Section WithDispatch.
(** The [dispatch] a future reaches through [self.iface]. *)
Variable dispatch : M DemoIface unit.

(** [DI_future.__getattr__("val")] *)
Definition DI_future_val (df : nat) : M DemoIface Z := fun s =>
  match future_done s df with
  | Some v => (s, Ok v)
  | None =>
    (dispatch ;;;
     fun s' => match future_done s' df with
               | Some v => (s', Ok v)
               | None => (s', Err Unresolved)
               end) s
  end.

Definition _rmw (df : option nat) (addr mask nval : Z) : M DemoIface unit :=
  match df with
  | None => raise AttributeError
  | Some df =>
    v <- DI_future_val df ;;
    _write addr (VInt (rmw_word v mask nval))
  end.

Definition call (x : oper) : M DemoIface unit :=
  match x with
  | OpWrite addr val => _write addr val
  | OpReadSet df addr => v <- _read addr ;; future_set df v
  | OpRmw odf waddr mask nval => _rmw odf waddr mask nval
  end.

(** [for x in self.opers: x()] *)
Fixpoint run (xs : list oper) : M DemoIface unit :=
  match xs with
  | [] => ret tt
  | x :: xs' => call x ;;; run xs'
  end.

Definition dispatch_body : M DemoIface unit := fun s =>
  match opers s with
  | [] => (print EmptyDispatch s, Ok tt)
  | xs =>
    (run xs ;;;
     fun s' => (print AfterDispatch (set_opers [] s'), Ok tt))
      (print BeforeDispatch s)
  end.
End WithDispatch.

(** [dispatch] with [depth] more nested activations allowed before the
    interpreter gives up with RecursionError. *)
Fixpoint dispatch (depth : nat) : M DemoIface unit :=
  dispatch_body
    (match depth with
     | O => raise RecursionError
     | S d => dispatch d
     end).

Definition rmw (addr : option Z) (mask val : Z) : M DemoIface unit := fun s =>
  let '(s, mask) :=
    match rmw_addr s with
    | Some cur =>
      if decide (addr = Some cur) then (s, mask)
      else
        let odf := rmw_df s in
        let mask := rmw_mask s in
        let waddr := cur in
        let nval := rmw_nval s in
        let s := set_opers (opers s ++ [OpRmw odf waddr mask nval]) s in
        (set_rmw_target None None s, mask)
    | None => (s, mask)
    end in
  match addr with
  | None => (s, Ok tt)
  | Some a =>
    let s :=
      match rmw_addr s with
      | None =>
        let df := length (futures s) in
        let s := set_futures (futures s ++ [None]) s in
        let s := set_opers (opers s ++ [OpReadSet df a]) s in
        set_rmw_target (Some df) (Some a) s
      | Some _ => s
      end in
    let m := Z.lor (rmw_mask s) mask in
    let n := Z.lor (rmw_nval s) mask in
    let n := Z.lxor n mask in
    let n := Z.lor n (Z.land val mask) in
    (set_rmw_acc m n s, Ok tt)
  end.

Section Depth.
Variable depth : nat.

Definition dispatch_if_opers : M DemoIface unit := fun s =>
  match opers s with
  | [] => (s, Ok tt)
  | _ => dispatch depth s
  end.

Definition read (addr : Z) : M DemoIface Z :=
  rmw None 0 0 ;;; dispatch_if_opers ;;; _read addr.

Definition write (addr : Z) (val : pyval) : M DemoIface unit :=
  rmw None 0 0 ;;; dispatch_if_opers ;;; _write addr val.

Definition writex (addr : Z) (val : pyval) : M DemoIface unit :=
  rmw None 0 0 ;;; append_oper (OpWrite addr val).

Definition readx (addr : Z) : M DemoIface nat :=
  rmw None 0 0 ;;;
  (df <- new_future ;;
   append_oper (OpReadSet df addr) ;;;
   ret df).

(** [p.val] on a future returned by [readx]. *)
Definition val (df : nat) : M DemoIface Z := DI_future_val (dispatch depth) df.
End Depth.
End Demo.

(** [DemoIface] has no [read_fifo] / [write_fifo] methods. *)
#[export] Instance DemoIface_Iface (depth : nat) : Iface DemoIface := {|
  Future := nat;
  iface_read := Demo.read depth;
  iface_write := Demo.write depth;
  iface_readx := Demo.readx;
  iface_writex := Demo.writex;
  iface_rmw := Demo.rmw;
  iface_dispatch := Demo.dispatch depth;
  iface_read_fifo := fun _ _ => raise AttributeError;
  iface_write_fifo := fun _ _ => raise AttributeError;
  future_val := Demo.val depth
|}.

(** ** A recording bus

    A test double of the bus capability: every method appends the call it
    received to the state and returns a neutral result. *)
Inductive bus_call : Type :=
| CallRead (addr : Z)
| CallWrite (addr : Z) (val : pyval)
| CallReadx (addr : Z)
| CallWritex (addr : Z) (val : pyval)
| CallRmw (addr : option Z) (mask val : Z)
| CallDispatch
| CallReadFifo (addr count : Z)
| CallWriteFifo (addr : Z) (values : list Z)
| CallVal.

Definition record {A} (c : bus_call) (a : A) : M (list bus_call) A :=
  fun t => (t ++ [c], Ok a).

#[export] Instance Recorder : Iface (list bus_call) := {|
  Future := unit;
  iface_read := fun a => record (CallRead a) 0;
  iface_write := fun a v => record (CallWrite a v) tt;
  iface_readx := fun a => record (CallReadx a) tt;
  iface_writex := fun a v => record (CallWritex a v) tt;
  iface_rmw := fun a m v => record (CallRmw a m v) tt;
  iface_dispatch := record CallDispatch tt;
  iface_read_fifo := fun a n => record (CallReadFifo a n) [];
  iface_write_fifo := fun a l => record (CallWriteFifo a l) tt;
  future_val := fun _ => record CallVal 0
|}.

(** ** Vocabulary of the statements *)

(** The element class can be instantiated with the vector's arguments:
    only a block class given a third constructor argument cannot. *)
Definition constructible (c : MClass) (args : option (dict BitField)) : Prop :=
  match c, args with
  | BlockClass _, Some _ => False
  | _, _ => True
  end.

(** The exceptions the demo bus itself can raise. *)
Definition bus_error (e : error) : bool :=
  match e with
  | IndexError | TypeError | AttributeError | RecursionError | Unresolved => true
  | _ => false
  end.

Definition raises_bus_errors {A} (m : M DemoIface A) : Prop :=
  forall s s' e, m s = (s', Err e) -> bus_error e = true.

(** The write a finalization appends for the target being aggregated. *)
Definition pending_write (s : DemoIface) : list oper :=
  match rmw_addr s with
  | Some a => [OpRmw (rmw_df s) a (rmw_mask s) (rmw_nval s)]
  | None => []
  end.

(** The state [rmw()] leaves: the accumulated mask and value stay. *)
Definition finalized (s : DemoIface) : DemoIface :=
  match rmw_addr s with
  | Some _ => set_rmw_target None None (set_opers (opers s ++ pending_write s) s)
  | None => s
  end.

(** What precedes the bus access in [read] and [write]: finalization of
    the pending RMW, then a dispatch if anything is queued. *)
Definition flush (depth : nat) : M DemoIface unit :=
  bind (Demo.rmw None 0 0) (fun _ => Demo.dispatch_if_opers depth).

(** The [dispatch] that [dispatch depth] hands to its futures. *)
Definition nested_dispatch (depth : nat) : M DemoIface unit :=
  match depth with
  | O => raise RecursionError
  | S d => Demo.dispatch d
  end.

Inductive access : Type :=
| Load (addr : Z)
| Store (addr : Z).

(** The bus access a queued operation performs, and the one a printed
    line reports. *)
Definition oper_access (x : oper) : access :=
  match x with
  | OpWrite a _ => Store a
  | OpReadSet _ a => Load a
  | OpRmw _ a _ _ => Store a
  end.

Definition event_access (e : event) : option access :=
  match e with
  | Reading a _ => Some (Load a)
  | Writing _ a => Some (Store a)
  | _ => None
  end.

Definition bus_accesses (l : list event) : list access := omap event_access l.

(** The lines that open a [dispatch()] call, one per call. *)
Definition dispatch_line (e : event) : bool :=
  match e with
  | EmptyDispatch | BeforeDispatch => true
  | _ => false
  end.

Definition dispatches (l : list event) : nat :=
  length (List.filter dispatch_line l).

(** Which futures are [done]. *)
Definition resolved (f : list (option Z)) : list bool :=
  (fun o : option Z => match o with Some _ => true | None => false end) <$> f.

Arguments dispatches : simpl never.
Arguments bus_accesses : simpl never.
Arguments resolved : simpl never.

(** The queue can run as it stands: every address is inside the register
    file of [n] words, every written value is an integer, and every RMW
    write finds its baseline future resolved by then ([res] says which
    futures are, a queued read resolves its own). *)
Fixpoint runnable (n : nat) (res : list bool) (xs : list oper) : bool :=
  match xs with
  | [] => true
  | OpWrite a (VInt _) :: xs' =>
    match index_of n a with Some _ => runnable n res xs' | None => false end
  | OpWrite _ (VList _) :: _ => false
  | OpReadSet df a :: xs' =>
    match index_of n a with
    | Some _ => runnable n (<[df := true]> res) xs'
    | None => false
    end
  | OpRmw (Some df) a _ _ :: xs' =>
    match res !! df, index_of n a with
    | Some true, Some _ => runnable n res xs'
    | _, _ => false
    end
  | OpRmw None _ _ _ :: _ => false
  end.

(** Which futures are resolved once the queue has run. *)
Fixpoint res_after (res : list bool) (xs : list oper) : list bool :=
  match xs with
  | [] => res
  | OpReadSet df _ :: xs' => res_after (<[df := true]> res) xs'
  | _ :: xs' => res_after res xs'
  end.

(** The queue, followed by the write of the pending RMW, can run. *)
Definition ready (s : DemoIface) : Prop :=
  runnable (length (rf s)) (resolved (futures s)) (opers s ++ pending_write s) = true.

(** Running queued operations touches the futures, the register file and
    the printed lines only. *)
Definition same_control (s s' : DemoIface) : Prop :=
  opers s' = opers s /\ rmw_df s' = rmw_df s /\ rmw_addr s' = rmw_addr s /\
  rmw_mask s' = rmw_mask s /\ rmw_nval s' = rmw_nval s /\
  length (rf s') = length (rf s).

(** [res'] has every future of [res], and every resolved one resolved. *)
Definition covers (res res' : list bool) : Prop :=
  (length res <= length res')%nat /\
  forall df, res !! df = Some true -> res' !! df = Some true.

(** The calls a client makes on the interface and on its futures, with
    integer arguments. *)
Inductive api_call : Type :=
| DoRead (addr : Z)
| DoWrite (addr val : Z)
| DoReadx (addr : Z)
| DoWritex (addr val : Z)
| DoRmw (addr mask val : Z)
| DoFinalize
| DoDispatch
| DoVal (df : nat).

(** The state a call leaves, whether it returns or raises. *)
Definition api_step (depth : nat) (c : api_call) (s : DemoIface) : DemoIface :=
  match c with
  | DoRead a => fst (Demo.read depth a s)
  | DoWrite a v => fst (Demo.write depth a (VInt v) s)
  | DoReadx a => fst (Demo.readx a s)
  | DoWritex a v => fst (Demo.writex a (VInt v) s)
  | DoRmw a m v => fst (Demo.rmw (Some a) m v s)
  | DoFinalize => fst (Demo.rmw None 0 0 s)
  | DoDispatch => fst (Demo.dispatch depth s)
  | DoVal df => fst (Demo.val depth df s)
  end.

(** The address of the call, if it has one, is inside a register file of
    [n] words. *)
Definition api_in_range (n : nat) (c : api_call) : Prop :=
  match c with
  | DoRead a | DoWrite a _ | DoReadx a | DoWritex a _ | DoRmw a _ _ =>
    is_Some (index_of n a)
  | DoFinalize | DoDispatch | DoVal _ => True
  end.

Fixpoint api_run (depth : nat) (cs : list api_call) (s : DemoIface) : DemoIface :=
  match cs with
  | [] => s
  | c :: cs' => api_run depth cs' (api_step depth c s)
  end.

(** ** Concrete descriptors, schemas and states *)

(** [BitField(7, 4, True)] and [BitField(9, 4, False)]. *)
Definition field_s_7_4 : BitField := MkBitField 4 7 8 (-8) 7 240.
Definition field_u_9_4 : BitField := MkBitField 4 9 0 0 63 1008.

(** A vector of ten blocks of size 3 at address 12. *)
Definition links_vector : Vector :=
  MkVector 12 (BlockClass (MkBlockDef false 3 0 0 [])) None 10.

(** The register [r1] of the demo's class [c2], at address 13. *)
Definition status_r1 : Register :=
  MkRegister StatusRegister 13 [("t1"%string, MkBitField 1 3 0 0 7 14);
                                ("t2"%string, field_u_9_4)].

(** After [rmw(1, 0x0F, 0x05)] on a fresh interface. *)
Definition pending_on_1 : DemoIface :=
  MkDemoIface [OpReadSet 0 1] (Some 0%nat) (Some 1) 0x0F 0x05 [None] rf0 [].

(** After [writex(3, 7)] then [rmw(1, 0x0F, 0x05)]. *)
Definition busy_state : DemoIface :=
  MkDemoIface [OpWrite 3 (VInt 7); OpReadSet 0 1]
              (Some 0%nat) (Some 1) 0x0F 0x05 [None] rf0 [].

(** After [p = readx(5)] on a fresh interface. *)
Definition after_readx : DemoIface :=
  MkDemoIface [OpReadSet 0 5] None None 0 0 [None] rf0 [].

Definition id_ver_fields : dict FieldInfo :=
  [("ID"%string, Single 0 (MkMArgs (RegisterClass StatusRegister) None));
   ("VER"%string, Single 1 (MkMArgs (RegisterClass StatusRegister) None))].

(** A non-blackbox block [LINK] (ID 0xBB, VER 1) inside a non-blackbox
    block [MAIN] (ID 0xAA, VER 1), and a register file in which [MAIN]'s
    ID and VER are right and [LINK]'s ID register holds 0xDEAD. *)
Definition LINK : BlockDef := MkBlockDef false 2 0xBB 1 id_ver_fields.

Definition MAIN : BlockDef :=
  MkBlockDef false 4 0xAA 1
    (id_ver_fields ++ [("LINK0"%string, Single 2 (MkMArgs (BlockClass LINK) None))]).

Definition rf_bad_link : list Z := [0xAA; 1; 0xDEAD; 1] ++ replicate 1020 0.

(** ** Vocabulary of the further properties *)

(** Two bitfields of one register share no bit position. *)
Definition disjoint_fields (bf bf' : BitField) : Prop :=
  msb bf < lsb bf' \/ msb bf' < lsb bf.

(** Nothing queued, nothing pending. *)
Definition quiescent (s : DemoIface) : Prop :=
  opers s = [] /\ rmw_addr s = None.

(** The RMW attributes as [__init__] leaves them. *)
Definition rmw_clear (s : DemoIface) : Prop :=
  rmw_addr s = None /\ rmw_mask s = 0 /\ rmw_nval s = 0.

(** The word an address names in a register file, and the file with
    that word replaced (an address outside the file names none). *)
Definition load (r : list Z) (a : Z) : Z :=
  match py_index r a with
  | Some i => default 0 (r !! i)
  | None => 0
  end.

Definition store (r : list Z) (a v : Z) : list Z :=
  match py_index r a with
  | Some i => <[i := v]> r
  | None => r
  end.

Definition future_word (f : list (option Z)) (df : nat) : Z :=
  match f !! df with
  | Some (Some v) => v
  | _ => 0
  end.

(** What a queue that can run does to the futures and to the register
    file, operation by operation. *)
Fixpoint effect (xs : list oper) (f : list (option Z)) (r : list Z)
  : list (option Z) * list Z :=
  match xs with
  | [] => (f, r)
  | OpWrite a (VInt v) :: xs' => effect xs' f (store r a v)
  | OpReadSet df a :: xs' => effect xs' (<[df := Some (load r a)]> f) r
  | OpRmw (Some df) a m n :: xs' =>
    effect xs' f (store r a (Demo.rmw_word (future_word f df) m n))
  | _ :: xs' => effect xs' f r
  end.

(** [f'] has every future of [f], the resolved ones with their value. *)
Definition futures_extend (f f' : list (option Z)) : Prop :=
  (length f <= length f')%nat /\
  forall d v, f !! d = Some (Some v) -> f' !! d = Some (Some v).

(** Every single-item field of the block can be instantiated. *)
Definition field_constructible (f : FieldInfo) : Prop :=
  match f with
  | Single _ (MkMArgs c a) => constructible c a
  | Repeated _ _ _ => True
  end.

Definition fields_constructible (cls : BlockDef) : Prop :=
  Forall (fun kv : string * FieldInfo => field_constructible (snd kv)) (x__fields cls).

(** The value of an RMW has no bit outside its mask. *)
Definition rmw_within (m n : Z) : Prop := Z.land n (Z.lnot m) = 0.

Definition oper_within (x : oper) : Prop :=
  match x with
  | OpRmw _ _ m n => rmw_within m n
  | _ => True
  end.

Definition within (s : DemoIface) : Prop :=
  rmw_within (rmw_mask s) (rmw_nval s) /\ Forall oper_within (opers s).

(** A blackbox block holding a vector of four registers. *)
Definition EXTERN : BlockDef :=
  MkBlockDef true 4 0 0
    [("reg"%string, Repeated 0 4 (MkMArgs (RegisterClass ControlRegister) None))].

(** The top block of the demo: [a = c1(mf, 12)], with [c2] of size 3. *)
Definition demo_c2 : BlockDef :=
  MkBlockDef false 3 0 0
    [("r1"%string,
      Single 1 (MkMArgs (RegisterClass StatusRegister)
                  (Some [("t1"%string, MkBitField 1 3 0 0 7 14);
                         ("t2"%string, field_u_9_4)])))].

Definition demo_c1 : BlockDef :=
  MkBlockDef false 100 0 0
    [("f1"%string, Repeated 0 10 (MkMArgs (BlockClass demo_c2) None));
     ("f2"%string, Single 11 (MkMArgs (BlockClass demo_c2) None))].

(** Some calls of a client. *)
Definition demo_calls : list api_call :=
  [DoWritex 3 7; DoRmw 1 0x0F 0x05; DoRmw 2 0xF0 0xA0; DoReadx 2; DoVal 1;
   DoRmw 2 1 1; DoDispatch; DoRead (-1)].

(** [dispatch()] tried [k] more times, whatever each try does. *)
Fixpoint redispatch (depth : nat) (k : nat) (s : DemoIface) : DemoIface :=
  match k with
  | O => s
  | S k' => redispatch depth k' (fst (Demo.dispatch depth s))
  end.

(** A queued write or read of address [a]. *)
Definition plain_access (x : oper) (a : Z) : Prop :=
  (exists v, x = OpWrite a (VInt v)) \/ (exists df, x = OpReadSet df a).

(** * Part II: its properties *)

(** ** Facts about descriptors *)

Lemma one_shl_Ok n p : one_shl n = Ok p -> 0 <= n /\ p = 2 ^ n.
Proof.
  unfold one_shl. destruct (Z.ltb_spec n 0); [discriminate|].
  intros [= <-]. split; [lia|]. rewrite Z.shiftl_1_l. reflexivity.
Qed.

Lemma BitField_init_wf m l sg bf :
  BitField_init m l sg = Ok bf -> BitField_wf bf sg /\ msb bf = m /\ lsb bf = l.
Proof.
  unfold BitField_init. intros H.
  destruct sg.
  - destruct (one_shl (m - l)) as [sm|] eqn:E1; [|discriminate].
    destruct (one_shl (m + 1)) as [hb|] eqn:E2; [|discriminate].
    destruct (one_shl l) as [lb|] eqn:E3; [|discriminate].
    injection H as <-.
    apply one_shl_Ok in E1 as [? ->], E2 as [? ->], E3 as [? ->].
    split; [|split; reflexivity].
    constructor; cbn; try lia; try discriminate.
    all: try (rewrite !Z.ones_equiv, <- !Z.sub_1_r; reflexivity).
    all: try (intros _; repeat split; lia).
  - destruct (one_shl (m - l + 1)) as [p|] eqn:E1; [|discriminate].
    destruct (one_shl (m + 1)) as [hb|] eqn:E2; [|discriminate].
    destruct (one_shl l) as [lb|] eqn:E3; [|discriminate].
    injection H as <-.
    apply one_shl_Ok in E1 as [? ->], E2 as [? ->], E3 as [? ->].
    split; [|split; reflexivity].
    constructor; cbn; try lia; try discriminate.
    all: try (rewrite !Z.ones_equiv, <- !Z.sub_1_r; reflexivity).
    all: try (intros _; repeat split; lia).
Qed.

(** ** Bit-level lemmas for the codec *)

Section Bits.

Lemma ones_xor_testbit m l i :
  0 <= l -> l - 1 <= m -> 0 <= i ->
  Z.testbit (Z.lxor (Z.ones (m + 1)) (Z.ones l)) i = (l <=? i) && (i <=? m).
Proof.
  intros Hl Hm Hi.
  rewrite Z.lxor_spec, !Z.testbit_ones_nonneg by lia.
  destruct (Z.ltb_spec i (m + 1)), (Z.ltb_spec i l),
           (Z.leb_spec l i), (Z.leb_spec i m); cbn; try reflexivity; lia.
Qed.

Lemma testbit_above u w i :
  0 <= u < 2 ^ w -> 0 <= w <= i -> Z.testbit u i = false.
Proof.
  intros Hu Hw.
  rewrite <- (Z.mod_small u (2 ^ w)) by lia.
  apply Z.mod_pow2_bits_high. lia.
Qed.

Lemma land_pow2_eq0 u k :
  0 <= k -> (Z.land u (2 ^ k) =? 0) = negb (Z.testbit u k).
Proof.
  intros Hk. destruct (Z.testbit u k) eqn:E; cbn.
  - apply Z.eqb_neq. intros H0.
    assert (Hb : Z.testbit (Z.land u (2 ^ k)) k = true).
    { rewrite Z.land_spec, E, Z.pow2_bits_true by lia. reflexivity. }
    rewrite H0, Z.bits_0 in Hb. discriminate.
  - apply Z.eqb_eq. apply Z.bits_inj'. intros i Hi.
    rewrite Z.land_spec, Z.bits_0, Z.pow2_bits_eqb by lia.
    destruct (Z.eqb_spec k i) as [->|]; [rewrite E; reflexivity | apply andb_false_r].
Qed.

Lemma testbit_top u k :
  0 <= k -> 0 <= u < 2 ^ (k + 1) -> Z.testbit u k = (2 ^ k <=? u).
Proof.
  intros Hk Hu.
  assert (Hp : 2 ^ (k + 1) = 2 * 2 ^ k) by (rewrite Z.pow_add_r by lia; lia).
  assert (H2 : 0 < 2 ^ k) by (apply Z.pow_pos_nonneg; lia).
  destruct (Z.leb_spec (2 ^ k) u) as [Hge|Hlt].
  - assert (Hq : u / 2 ^ k = 1).
    { symmetry. apply (Z.div_unique u (2 ^ k) 1 (u - 2 ^ k)); lia. }
    pose proof (Z.testbit_spec' u k Hk) as Hs. rewrite Hq in Hs.
    destruct (Z.testbit u k); [reflexivity | discriminate Hs].
  - apply (testbit_above u k); lia.
Qed.

Variable bf : BitField.
Variable is_signed : bool.
Hypothesis Hwf : BitField_wf bf is_signed.

Lemma mask_testbit i :
  0 <= i -> Z.testbit (mask bf) i = (lsb bf <=? i) && (i <=? msb bf).
Proof.
  intros Hi. destruct Hwf. rewrite wf_mask0.
  apply ones_xor_testbit; assumption.
Qed.

(** The field read back from a word in which [u] was inserted is [u],
    whatever the word was before. *)
Lemma extract_insert raw u :
  0 <= u < 2 ^ (msb bf - lsb bf + 1) ->
  Z.shiftr (Z.land (insert_field bf raw u) (mask bf)) (lsb bf) = u.
Proof.
  intros Hu. pose proof (wf_lsb _ _ Hwf) as Hl. pose proof (wf_msb _ _ Hwf) as Hm.
  apply Z.bits_inj'. intros i Hi. unfold insert_field.
  rewrite Z.shiftr_spec, Z.land_spec, Z.lor_spec, Z.lxor_spec, Z.lor_spec,
    Z.land_spec, Z.shiftl_spec, mask_testbit by lia.
  replace (i + lsb bf - lsb bf) with i by lia.
  destruct (Z.leb_spec (lsb bf) (i + lsb bf)); [|lia].
  destruct (Z.leb_spec (i + lsb bf) (msb bf)); cbn.
  - rewrite orb_true_r, andb_true_r. cbn. rewrite andb_true_r. reflexivity.
  - rewrite andb_false_r. symmetry.
    apply (testbit_above u (msb bf - lsb bf + 1)); lia.
Qed.

(** Outside the field the word is untouched. *)
Lemma insert_field_outside raw u i :
  0 <= i -> (i < lsb bf \/ msb bf < i) ->
  Z.testbit (insert_field bf raw u) i = Z.testbit raw i.
Proof.
  intros Hi Hout. unfold insert_field.
  rewrite Z.lor_spec, Z.lxor_spec, Z.lor_spec, Z.land_spec, mask_testbit by lia.
  destruct (Z.leb_spec (lsb bf) i), (Z.leb_spec i (msb bf)); cbn; try lia;
    rewrite ?andb_false_r, ?orb_false_r, ?xorb_false_r; reflexivity.
Qed.

Lemma wrap_negative_range v :
  vmin bf <= v <= vmax bf ->
  0 <= wrap_negative bf v < 2 ^ (msb bf - lsb bf + 1).
Proof.
  intros Hv. unfold wrap_negative. destruct is_signed eqn:Es.
  - destruct (wf_signed _ _ Hwf eq_refl) as (Hw & Hsm & Hlo & Hhi).
    assert (Hp : 2 ^ (msb bf - lsb bf + 1) = 2 * 2 ^ (msb bf - lsb bf))
      by (rewrite Z.pow_add_r by lia; lia).
    assert (H2 : 0 < 2 ^ (msb bf - lsb bf)) by (apply Z.pow_pos_nonneg; lia).
    rewrite Hsm, Z.shiftl_mul_pow2, Z.pow_1_r by lia.
    destruct (Z.eqb_spec (2 ^ (msb bf - lsb bf)) 0); [lia|].
    destruct (Z.ltb_spec v 0); lia.
  - destruct (wf_unsigned _ _ Hwf eq_refl) as (Hsm & Hlo & Hhi).
    rewrite Hsm. cbn. lia.
Qed.

Lemma decode_insert raw v :
  vmin bf <= v <= vmax bf ->
  decode bf (insert_field bf raw (wrap_negative bf v)) = v.
Proof.
  intros Hv. unfold decode.
  rewrite extract_insert by (apply wrap_negative_range; assumption).
  pose proof (wrap_negative_range v Hv) as Hu.
  unfold wrap_negative in *. destruct is_signed eqn:Es.
  - destruct (wf_signed _ _ Hwf eq_refl) as (Hw & Hsm & Hlo & Hhi).
    assert (Hp : 2 ^ (msb bf - lsb bf + 1) = 2 * 2 ^ (msb bf - lsb bf))
      by (rewrite Z.pow_add_r by lia; lia).
    assert (H2 : 0 < 2 ^ (msb bf - lsb bf)) by (apply Z.pow_pos_nonneg; lia).
    rewrite Hsm in *. rewrite Z.shiftl_mul_pow2, Z.pow_1_r in * by lia.
    destruct (Z.eqb_spec (2 ^ (msb bf - lsb bf)) 0); [lia|].
    rewrite land_pow2_eq0 by lia.
    rewrite testbit_top by (destruct (v <? 0); lia).
    destruct (Z.ltb_spec v 0).
    + destruct (Z.leb_spec (2 ^ (msb bf - lsb bf)) (v + 2 ^ (msb bf - lsb bf) * 2));
        cbn; lia.
    + destruct (Z.leb_spec (2 ^ (msb bf - lsb bf)) v); cbn; lia.
  - destruct (wf_unsigned _ _ Hwf eq_refl) as (Hsm & Hlo & Hhi).
    rewrite Hsm. reflexivity.
Qed.

End Bits.

(** ** The codec round trip *)

Lemma out_of_range_spec bf v :
  out_of_range bf v = true <-> v < vmin bf \/ vmax bf < v.
Proof.
  unfold out_of_range. rewrite orb_true_iff, !Z.ltb_lt. reflexivity.
Qed.

Lemma out_of_range_false bf v :
  out_of_range bf v = false <-> vmin bf <= v <= vmax bf.
Proof.
  unfold out_of_range. rewrite orb_false_iff, !Z.ltb_ge. reflexivity.
Qed.

(** [encode] is the computation of [_BitFieldAccess.write] between its bus
    read and its bus write. *)
Lemma BitFieldAccess_write_encode `{Iface St} (a : BitFieldAccess) v (s : St) :
  BitFieldAccess_write a v s =
  if out_of_range (x__bf a) v then (s, Err OutOfRange)
  else bind (iface_read (bfa_base a))
            (fun raw => match encode (x__bf a) v raw with
                        | Ok w => iface_write (bfa_base a) (VInt w)
                        | Err e => raise e
                        end) s.
Proof.
  unfold BitFieldAccess_write, encode.
  destruct (out_of_range (x__bf a) v); reflexivity.
Qed.

(** C3. For every descriptor the constructor builds (any [lsb >= 0] and
    any width, signed or unsigned, so in particular the widths 1 to 32)
    and every value in [[vmin, vmax]], encoding the value into an
    arbitrary prior register word succeeds and decoding the new word
    gives the value back. *)
Theorem decode_encode_roundtrip (m l : Z) (is_signed : bool) (bf : BitField)
    (v raw : Z) :
  BitField_init m l is_signed = Ok bf ->
  vmin bf <= v <= vmax bf ->
  exists w, encode bf v raw = Ok w /\ decode bf w = v.
Proof.
  intros Hinit Hv.
  apply BitField_init_wf in Hinit as (Hwf & _ & _).
  exists (insert_field bf raw (wrap_negative bf v)). split.
  - unfold encode. apply out_of_range_false in Hv. rewrite Hv. reflexivity.
  - apply (decode_insert bf is_signed Hwf). exact Hv.
Qed.

Lemma decode_encode_roundtrip_witness :
  BitField_init 7 4 true = Ok field_s_7_4 /\
  vmin field_s_7_4 <= -3 <= vmax field_s_7_4 /\
  exists w, encode field_s_7_4 (-3) 0xFFFF = Ok w /\ decode field_s_7_4 w = -3.
Proof.
  split; [reflexivity|]. split; [cbn; lia|].
  apply (decode_encode_roundtrip 7 4 true); [reflexivity | cbn; lia].
Defined.

(** ** Vector indexing *)

Lemma construct_ok c base args :
  constructible c args ->
  exists acc, construct c base args = Ok acc /\ acc_base acc = base /\
              acc_instance_of acc c.
Proof.
  destruct c as [k|b], args as [t|]; cbn; intros Hc; try contradiction;
    eexists; (split; [reflexivity|]); cbn; auto.
Qed.

Lemma construct_not_bounds c base args :
  construct c base args <> Err IndexOutOfBounds.
Proof. destruct c, args; discriminate. Qed.

(** C9. [Vector.__getitem__] raises the out-of-bounds error exactly when
    [key >= nitems]; for every other key it builds a new accessor of the
    element class whose base address is [base + key * x__size]. *)
Theorem Vector_getitem_spec (v : Vector) (key : Z) :
  (Vector_getitem v key = Err IndexOutOfBounds <-> nitems v <= key) /\
  (key < nitems v ->
   constructible (vec_mclass v) (vec_args v) ->
   exists acc, Vector_getitem v key = Ok acc /\
               acc_base acc = vec_base v + key * x__size (vec_mclass v) /\
               acc_instance_of acc (vec_mclass v)).
Proof.
  unfold Vector_getitem. destruct (Z.leb_spec (nitems v) key) as [Hge|Hlt].
  - split; [tauto | lia].
  - split.
    + split; [intros Hc; exfalso; exact (construct_not_bounds _ _ _ Hc) | lia].
    + intros _ Hc. apply construct_ok. exact Hc.
Qed.

Lemma Vector_getitem_spec_witness :
  (Vector_getitem links_vector 4 = Err IndexOutOfBounds <-> nitems links_vector <= 4) /\
  exists acc, Vector_getitem links_vector 4 = Ok acc /\
              acc_base acc = 24 /\
              acc_instance_of acc (vec_mclass links_vector).
Proof.
  split; [apply (Vector_getitem_spec links_vector 4)|].
  apply (proj2 (Vector_getitem_spec links_vector 4)); [cbn; lia | exact I].
Defined.

(** ** Bulk pass-through *)

(** C8 (the code departs from it). On the recording bus [read_fifo]
    reaches the bus's [read_fifo], but [write_fifo] reaches the bus's
    plain [write] with the whole sequence as its value; the bus's
    [write_fifo] is never called. *)
Theorem write_fifo_calls_write (r : Register) (values : list Z) (count : Z)
    (t : list bus_call) :
  Register_read_fifo r count t = (t ++ [CallReadFifo (reg_base r) count], Ok []) /\
  Register_write_fifo r values t = (t ++ [CallWrite (reg_base r) (VList values)], Ok tt) /\
  fst (Register_write_fifo r values t) <> t ++ [CallWriteFifo (reg_base r) values].
Proof.
  split; [reflexivity|]. split; [reflexivity|].
  cbn. intros Heq. apply app_inv_head in Heq. discriminate Heq.
Qed.

(** ** Which exceptions the demo bus can raise *)

Section BusErrors.
Local Open Scope py_scope.

Lemma rbe_ret {A} (a : A) : raises_bus_errors (ret a).
Proof. intros s s' e [=]. Qed.

Lemma rbe_raise {A} e : bus_error e = true -> raises_bus_errors (@raise _ A e).
Proof. intros He s s' e' [= _ <-]. exact He. Qed.

Lemma rbe_bind {A B} (m : M DemoIface A) (k : A -> M DemoIface B) :
  raises_bus_errors m -> (forall a, raises_bus_errors (k a)) ->
  raises_bus_errors (bind m k).
Proof.
  intros Hm Hk s s' e. unfold bind.
  destruct (m s) as [s1 [a|e1]] eqn:Em.
  - apply Hk.
  - intros [= _ <-]. exact (Hm _ _ _ Em).
Qed.

Lemma rbe__read addr : raises_bus_errors (Demo._read addr).
Proof.
  intros s s' e. unfold Demo._read.
  destruct (py_index (rf s) addr) as [i|]; [destruct (rf s !! i)|];
    intros [= _ <-]; reflexivity.
Qed.

Lemma rbe__write addr val : raises_bus_errors (Demo._write addr val).
Proof.
  intros s s' e. unfold Demo._write. destruct val as [v|l].
  - destruct (py_index _ addr); intros [= _ <-]; reflexivity.
  - intros [= _ <-]; reflexivity.
Qed.

Lemma rbe_future_set df v : raises_bus_errors (Demo.future_set df v).
Proof. intros s s' e [=]. Qed.

Lemma rmw_returns addr m v s : exists s', Demo.rmw addr m v s = (s', Ok tt).
Proof.
  unfold Demo.rmw.
  destruct (rmw_addr s) as [cur|] eqn:Ea; [destruct (decide (addr = Some cur))|];
    destruct addr; eexists; reflexivity.
Qed.

Lemma rbe_rmw addr m v : raises_bus_errors (Demo.rmw addr m v).
Proof.
  intros s s' e He. destruct (rmw_returns addr m v s) as [s1 H1].
  rewrite H1 in He. discriminate He.
Qed.

Section Nested.
Variable nested : M DemoIface unit.
Hypothesis Hnested : raises_bus_errors nested.

Lemma rbe_DI_future_val df : raises_bus_errors (Demo.DI_future_val nested df).
Proof.
  intros s s' e. unfold Demo.DI_future_val.
  destruct (future_done s df); [intros [=]|].
  apply rbe_bind; [exact Hnested|]. intros _ s1 s2 e2.
  destruct (future_done s1 df); intros [= _ <-]; reflexivity.
Qed.

Lemma rbe__rmw odf addr m n : raises_bus_errors (Demo._rmw nested odf addr m n).
Proof.
  destruct odf as [df|]; cbn.
  - apply rbe_bind; [apply rbe_DI_future_val | intros; apply rbe__write].
  - apply rbe_raise. reflexivity.
Qed.

Lemma rbe_call x : raises_bus_errors (Demo.call nested x).
Proof.
  destruct x; cbn.
  - apply rbe__write.
  - apply rbe_bind; [apply rbe__read | intros; apply rbe_future_set].
  - apply rbe__rmw.
Qed.

Lemma rbe_run xs : raises_bus_errors (Demo.run nested xs).
Proof.
  induction xs as [|x xs IH]; cbn.
  - apply rbe_ret.
  - apply rbe_bind; [apply rbe_call | intros; exact IH].
Qed.

Lemma rbe_dispatch_body : raises_bus_errors (Demo.dispatch_body nested).
Proof.
  intros s s' e. unfold Demo.dispatch_body.
  destruct (opers s) as [|x xs]; [intros [=]|].
  apply rbe_bind; [apply rbe_run|]. intros _ s1 s2 e2 [=].
Qed.
End Nested.

Lemma rbe_dispatch depth : raises_bus_errors (Demo.dispatch depth).
Proof.
  induction depth as [|d IH]; cbn; apply rbe_dispatch_body.
  - apply rbe_raise. reflexivity.
  - exact IH.
Qed.

Lemma rbe_dispatch_if_opers depth : raises_bus_errors (Demo.dispatch_if_opers depth).
Proof.
  intros s s' e. unfold Demo.dispatch_if_opers.
  destruct (opers s); [intros [=] | apply rbe_dispatch].
Qed.

Lemma rbe_read depth addr : raises_bus_errors (Demo.read depth addr).
Proof.
  unfold Demo.read. apply rbe_bind; [apply rbe_rmw|]. intros _.
  apply rbe_bind; [apply rbe_dispatch_if_opers | intros; apply rbe__read].
Qed.

Lemma rbe_write depth addr val : raises_bus_errors (Demo.write depth addr val).
Proof.
  unfold Demo.write. apply rbe_bind; [apply rbe_rmw|]. intros _.
  apply rbe_bind; [apply rbe_dispatch_if_opers | intros; apply rbe__write].
Qed.

Lemma rbe_not {A} (m : M DemoIface A) s e :
  raises_bus_errors m -> bus_error e = false -> snd (m s) <> Err e.
Proof.
  intros Hm He Hs. destruct (m s) as [s' r] eqn:Em. cbn in Hs. subst r.
  apply Hm in Em. congruence.
Qed.
End BusErrors.

(** ** Rejected bitfield writes *)

(** On any bus, a value outside [[vmin, vmax]] makes [write] and [writex]
    raise before they touch the bus: the state is the one they got. *)
Lemma BitFieldAccess_rejects `{Iface St} (a : BitFieldAccess) v now (s : St) :
  v < vmin (x__bf a) \/ vmax (x__bf a) < v ->
  BitFieldAccess_write a v s = (s, Err OutOfRange) /\
  BitFieldAccess_writex a v now s = (s, Err OutOfRange).
Proof.
  intros Hv. apply out_of_range_spec in Hv.
  unfold BitFieldAccess_write, BitFieldAccess_writex. rewrite Hv.
  split; reflexivity.
Qed.

(** C4. On the demo bus, in any state, the bitfield [write] and [writex]
    raise the out-of-range error exactly when [value < vmin] or
    [value > vmax], and when they do the whole state (queue, pending RMW,
    futures, register file, printed lines) is what it was before the
    call. *)
Theorem bitfield_write_out_of_range (depth : nat) (a : BitFieldAccess)
    (value : Z) (now : bool) (s : DemoIface) :
  let I := DemoIface_Iface depth in
  let bad := value < vmin (x__bf a) \/ vmax (x__bf a) < value in
  (snd (BitFieldAccess_write a value s) = Err OutOfRange <-> bad) /\
  (snd (BitFieldAccess_writex a value now s) = Err OutOfRange <-> bad) /\
  (bad -> BitFieldAccess_write a value s = (s, Err OutOfRange) /\
          BitFieldAccess_writex a value now s = (s, Err OutOfRange)).
Proof.
  intros I bad.
  assert (Hbad : bad -> BitFieldAccess_write a value s = (s, Err OutOfRange) /\
                        BitFieldAccess_writex a value now s = (s, Err OutOfRange))
    by apply BitFieldAccess_rejects.
  assert (Hgood : out_of_range (x__bf a) value = false ->
                  snd (BitFieldAccess_write a value s) <> Err OutOfRange /\
                  snd (BitFieldAccess_writex a value now s) <> Err OutOfRange).
  { intros Hr. unfold BitFieldAccess_write, BitFieldAccess_writex. rewrite Hr.
    split; apply rbe_not; try reflexivity.
    - apply rbe_bind; [apply rbe_read | intros; apply rbe_write].
    - apply rbe_bind; [apply rbe_rmw|]. intros _.
      destruct now; [apply rbe_rmw | apply rbe_ret]. }
  destruct (out_of_range (x__bf a) value) eqn:Hr.
  - apply out_of_range_spec in Hr. destruct (Hbad Hr) as [Hw Hx].
    rewrite Hw, Hx. cbn. repeat split; auto.
  - destruct (Hgood eq_refl) as [Hw Hx]. apply out_of_range_false in Hr.
    assert (Hnb : ~ bad) by (subst bad; lia). tauto.
Qed.

Lemma bitfield_write_out_of_range_witness :
  let I := DemoIface_Iface 0 in
  let a := MkBitFieldAccess 1 field_u_9_4 in
  BitFieldAccess_write a 64 (DemoIface_init rf0) = (DemoIface_init rf0, Err OutOfRange) /\
  BitFieldAccess_writex a 64 true (DemoIface_init rf0) = (DemoIface_init rf0, Err OutOfRange).
Proof.
  apply (bitfield_write_out_of_range 0 (MkBitFieldAccess 1 field_u_9_4) 64 true
           (DemoIface_init rf0)).
  right. cbn. lia.
Defined.

(** ** The RMW aggregation of the demo bus *)

Lemma rmw_finalize s : Demo.rmw None 0 0 s = (finalized s, Ok tt).
Proof.
  unfold Demo.rmw, finalized, pending_write.
  destruct (rmw_addr s) as [cur|] eqn:Ea; [|reflexivity].
  destruct (decide (None = Some cur)) as [Hd|_]; [discriminate Hd | reflexivity].
Qed.

Lemma finalized_opers s : opers (finalized s) = opers s ++ pending_write s.
Proof.
  unfold finalized, pending_write.
  destruct (rmw_addr s); cbn; [reflexivity | rewrite app_nil_r; reflexivity].
Qed.

Lemma finalized_idle s : rmw_addr (finalized s) = None.
Proof. unfold finalized. destruct (rmw_addr s) eqn:E; [reflexivity | exact E]. Qed.

(** A request for another address than the pending one: what the code
    does, for every state.  The pending target's write is queued with its
    own future, mask and value, then the read of the new address; the new
    request is merged with the OLD mask (the parameter [mask] has been
    overwritten by the copy made for the closure) into accumulators that
    were not cleared. *)
Lemma rmw_divert s A B mB vB :
  rmw_addr s = Some A -> B <> A ->
  Demo.rmw (Some B) mB vB s =
  (MkDemoIface
     (opers s ++ [OpRmw (rmw_df s) A (rmw_mask s) (rmw_nval s);
                  OpReadSet (length (futures s)) B])
     (Some (length (futures s))) (Some B)
     (Z.lor (rmw_mask s) (rmw_mask s))
     (Z.lor (Z.lxor (Z.lor (rmw_nval s) (rmw_mask s)) (rmw_mask s))
            (Z.land vB (rmw_mask s)))
     (futures s ++ [None]) (rf s) (stdout s), Ok tt).
Proof.
  intros Ha Hne. unfold Demo.rmw. rewrite Ha.
  destruct (decide (Some B = Some A)) as [[= Hd]|_]; [contradiction|].
  cbn. rewrite <- app_assoc. reflexivity.
Qed.

(** A request for the address already pending only merges. *)
Lemma rmw_same s A m v :
  rmw_addr s = Some A ->
  Demo.rmw (Some A) m v s =
  (set_rmw_acc (Z.lor (rmw_mask s) m)
               (Z.lor (Z.lxor (Z.lor (rmw_nval s) m) m) (Z.land v m)) s, Ok tt).
Proof.
  intros Ha. unfold Demo.rmw. rewrite Ha.
  destruct (decide (Some A = Some A)) as [_|Hd]; [|contradiction].
  rewrite Ha. reflexivity.
Qed.

(** A request while nothing is pending. *)
Lemma rmw_idle s A m v :
  rmw_addr s = None ->
  Demo.rmw (Some A) m v s =
  (MkDemoIface
     (opers s ++ [OpReadSet (length (futures s)) A])
     (Some (length (futures s))) (Some A)
     (Z.lor (rmw_mask s) m)
     (Z.lor (Z.lxor (Z.lor (rmw_nval s) m) m) (Z.land v m))
     (futures s ++ [None]) (rf s) (stdout s), Ok tt).
Proof.
  intros Ha. unfold Demo.rmw. rewrite Ha. cbn. rewrite Ha. reflexivity.
Qed.

Lemma lxor_lor_clear a m : Z.lxor (Z.lor a m) m = Z.land a (Z.lnot m).
Proof.
  apply Z.bits_inj'. intros i Hi.
  rewrite Z.lxor_spec, Z.lor_spec, Z.land_spec, Z.lnot_spec by lia.
  destruct (Z.testbit a i), (Z.testbit m i); reflexivity.
Qed.

Lemma rmw_word_spec v m n : Demo.rmw_word v m n = Z.lor (Z.land v (Z.lnot m)) n.
Proof. unfold Demo.rmw_word. rewrite lxor_lor_clear. reflexivity. Qed.

(** The word two merged requests write, as the last-writer-wins formula. *)
Lemma merged_word b m1 v1 m2 v2 :
  Demo.rmw_word b (Z.lor (Z.lor 0 m1) m2)
    (Z.lor (Z.lxor (Z.lor (Z.lor (Z.lxor (Z.lor 0 m1) m1) (Z.land v1 m1)) m2) m2)
           (Z.land v2 m2)) =
  Z.lor (Z.lor (Z.land b (Z.lnot (Z.lor m1 m2)))
               (Z.land (Z.land v1 m1) (Z.lnot m2)))
        (Z.land v2 m2).
Proof.
  unfold Demo.rmw_word. apply Z.bits_inj'. intros i Hi.
  repeat first [ rewrite Z.lor_spec | rewrite Z.lxor_spec | rewrite Z.land_spec
               | rewrite Z.lnot_spec by lia | rewrite Z.bits_0 ].
  destruct (Z.testbit b i), (Z.testbit m1 i), (Z.testbit m2 i),
           (Z.testbit v1 i), (Z.testbit v2 i); reflexivity.
Qed.

(** From an interface whose accumulators are clear (as [__init__] leaves
    them) two requests to one address and a finalization queue one read
    and one write, and the write stores the last-writer-wins word. *)
Lemma coalesce_two_from_clear s A m1 v1 m2 v2 :
  rmw_addr s = None -> rmw_mask s = 0 -> rmw_nval s = 0 ->
  exists s' n,
    bind (Demo.rmw (Some A) m1 v1)
         (fun _ => bind (Demo.rmw (Some A) m2 v2)
                        (fun _ => Demo.rmw None 0 0)) s = (s', Ok tt) /\
    opers s' = opers s ++ [OpReadSet (length (futures s)) A;
                           OpRmw (Some (length (futures s))) A (Z.lor m1 m2) n] /\
    rmw_addr s' = None /\
    forall baseline,
      Demo.rmw_word baseline (Z.lor m1 m2) n =
      Z.lor (Z.lor (Z.land baseline (Z.lnot (Z.lor m1 m2)))
                   (Z.land (Z.land v1 m1) (Z.lnot m2)))
            (Z.land v2 m2).
Proof.
  intros Ha Hm Hn. unfold bind.
  rewrite (rmw_idle s A m1 v1 Ha), Hm, Hn.
  rewrite rmw_same by reflexivity. rewrite rmw_finalize.
  eexists. eexists. split; [reflexivity|].
  unfold finalized, pending_write. cbn. rewrite <- app_assoc. cbn.
  split; [reflexivity|]. split; [reflexivity|].
  intros b. apply merged_word.
Qed.

(** C1 (the code departs from it). With address 1 pending (mask 0x0F,
    value 0x05), the request [rmw(2, 0xF0, 0xA0)] does queue address 1's
    write from its own future, mask and value and then the read of
    address 2, but the entry left pending for address 2 has mask 0x0F and
    value 0 instead of mask 0xF0 and value 0xA0; once finalized and
    dispatched, register 2 holds 0 and not 0xA0. *)
Theorem rmw_divert_stale_accumulators :
  Demo.rmw (Some 1) 0x0F 0x05 (DemoIface_init rf0) = (pending_on_1, Ok tt) /\
  Demo.rmw (Some 2) 0xF0 0xA0 pending_on_1 =
    (MkDemoIface [OpReadSet 0 1; OpRmw (Some 0%nat) 1 0x0F 0x05; OpReadSet 1 2]
                 (Some 1%nat) (Some 2) 0x0F 0 [None; None] rf0 [], Ok tt) /\
  (exists s, bind (Demo.rmw (Some 2) 0xF0 0xA0)
                  (fun _ => bind (Demo.rmw None 0 0) (fun _ => Demo.dispatch 0))
                  pending_on_1 = (s, Ok tt) /\
             rf s !! 1%nat = Some 0x05 /\ rf s !! 2%nat = Some 0).
Proof.
  split; [reflexivity|]. split; [reflexivity|].
  eexists. split; [vm_compute; reflexivity|]. split; reflexivity.
Qed.

(** C2 (the code departs from it). After an RMW to address 1 (mask 0x0F,
    value 0x05) has been finalized, two requests to address 2 with masks
    0xF0, 0x100 and values 0xA0, 0x100 are finalized into one write whose
    mask is 0x1FF and value 0x1A5: the accumulators of the finished RMW
    were never cleared.  On a baseline of 0 the write stores 0x1A5, where
    the last-writer-wins formula gives 0x1A0. *)
Theorem coalesce_two_after_finalize_stale :
  exists s s',
    bind (Demo.rmw (Some 1) 0x0F 0x05)
         (fun _ => bind (Demo.rmw None 0 0)
         (fun _ => bind (Demo.rmw (Some 2) 0xF0 0xA0)
         (fun _ => bind (Demo.rmw (Some 2) 0x100 0x100)
         (fun _ => Demo.rmw None 0 0)))) (DemoIface_init rf0) = (s, Ok tt) /\
    opers s = [OpReadSet 0 1; OpRmw (Some 0%nat) 1 0x0F 0x05;
               OpReadSet 1 2; OpRmw (Some 1%nat) 2 0x1FF 0x1A5] /\
    Demo.rmw_word 0 0x1FF 0x1A5 = 0x1A5 /\
    Z.lor (Z.lor (Z.land 0 (Z.lnot (Z.lor 0xF0 0x100)))
                 (Z.land (Z.land 0xA0 0xF0) (Z.lnot 0x100)))
          (Z.land 0x100 0x100) = 0x1A0 /\
    Demo.dispatch 0 s = (s', Ok tt) /\
    rf s' !! 2%nat = Some 0x1A5.
Proof.
  eexists. eexists. split; [vm_compute; reflexivity|].
  split; [reflexivity|]. split; [reflexivity|]. split; [reflexivity|].
  split; [vm_compute; reflexivity|]. reflexivity.
Qed.

(** ** Draining the queue *)

Lemma same_control_refl s : same_control s s.
Proof. repeat split. Qed.

Lemma same_control_trans s1 s2 s3 :
  same_control s1 s2 -> same_control s2 s3 -> same_control s1 s3.
Proof.
  unfold same_control. intros (?&?&?&?&?&?) (?&?&?&?&?&?).
  repeat split; congruence.
Qed.

Lemma index_of_lt n a i : index_of n a = Some i -> (i < n)%nat.
Proof.
  unfold index_of.
  destruct (Z.leb_spec 0 a).
  - destruct (Z.ltb_spec a (Z.of_nat n)); intros [= <-]; lia.
  - destruct (Z.leb_spec (- Z.of_nat n) a); intros [= <-]; lia.
Qed.

Lemma bus_accesses_snoc l e :
  bus_accesses (l ++ [e]) =
  bus_accesses l ++ match event_access e with Some a => [a] | None => [] end.
Proof.
  unfold bus_accesses. rewrite omap_app. cbn.
  destruct (event_access e); reflexivity.
Qed.

Lemma dispatches_snoc l e :
  dispatches (l ++ [e]) = (dispatches l + (if dispatch_line e then 1 else 0))%nat.
Proof.
  unfold dispatches. rewrite List.filter_app, length_app. cbn.
  destruct (dispatch_line e); reflexivity.
Qed.

Lemma res_after_keeps xs : forall res df,
  res !! df = Some true -> res_after res xs !! df = Some true.
Proof.
  induction xs as [|x xs IH]; intros res df Hd; [exact Hd|].
  destruct x as [a v|df' a|odf a m n]; cbn; try (apply IH; exact Hd).
  apply IH. destruct (decide (df' = df)) as [->|Hne].
  - rewrite list_lookup_insert_eq; [reflexivity|].
    apply lookup_lt_is_Some. eauto.
  - rewrite list_lookup_insert_ne by exact Hne. exact Hd.
Qed.

Lemma res_after_sets xs : forall res df a,
  OpReadSet df a ∈ xs -> (df < length res)%nat ->
  res_after res xs !! df = Some true.
Proof.
  induction xs as [|x xs IH]; intros res df a Hin Hlt.
  - apply elem_of_nil in Hin. contradiction.
  - apply elem_of_cons in Hin as [<-|Hin].
    + cbn. apply res_after_keeps. apply list_lookup_insert_eq. exact Hlt.
    + destruct x as [a' v|df' a'|odf a' m n]; cbn; try (eapply IH; eassumption).
      eapply IH; [eassumption|]. rewrite length_insert. exact Hlt.
Qed.

Lemma res_after_untouched xs : forall res df,
  (forall a, OpReadSet df a ∉ xs) -> res_after res xs !! df = res !! df.
Proof.
  induction xs as [|x xs IH]; intros res df Hno; [reflexivity|].
  assert (Hno' : forall a, OpReadSet df a ∉ xs).
  { intros a Hin. apply (Hno a). apply elem_of_cons. right. exact Hin. }
  destruct x as [a v|df' a|odf a m n]; cbn; try (apply IH; exact Hno').
  rewrite IH by exact Hno'.
  apply list_lookup_insert_ne. intros ->. apply (Hno a). apply elem_of_cons. left.
  reflexivity.
Qed.

Lemma resolved_lookup f df :
  resolved f !! df = Some true <-> exists v, f !! df = Some (Some v).
Proof.
  unfold resolved. rewrite list_lookup_fmap.
  destruct (f !! df) as [[v|]|]; cbn; split; try discriminate.
  - intros _. exists v. reflexivity.
  - reflexivity.
  - intros [v [=]].
  - intros [v [=]].
Qed.

Lemma future_done_resolved s df :
  (exists v, future_done s df = Some v) <-> resolved (futures s) !! df = Some true.
Proof.
  rewrite resolved_lookup. unfold future_done.
  destruct (futures s !! df) as [[v|]|]; split; intros [w Hw]; try discriminate;
    exists v; reflexivity.
Qed.

Section Run.
Variable nested : M DemoIface unit.

Lemma call_runnable x xs s :
  runnable (length (rf s)) (resolved (futures s)) (x :: xs) = true ->
  exists s',
    Demo.call nested x s = (s', Ok tt) /\ same_control s s' /\
    bus_accesses (stdout s') = bus_accesses (stdout s) ++ [oper_access x] /\
    dispatches (stdout s') = dispatches (stdout s) /\
    res_after (resolved (futures s')) xs = res_after (resolved (futures s)) (x :: xs) /\
    runnable (length (rf s')) (resolved (futures s')) xs = true.
Proof.
  destruct x as [a [v|l]|df a|[df|] a m n]; cbn [runnable]; try discriminate.
  - destruct (index_of (length (rf s)) a) as [i|] eqn:Ei; [|discriminate].
    intros Hr. cbn. unfold Demo._write, py_index. cbn. rewrite Ei.
    eexists. split; [reflexivity|]. unfold same_control. cbn.
    rewrite length_insert, dispatches_snoc, Nat.add_0_r.
    split; [repeat split|]. split; [apply bus_accesses_snoc|]. auto.
  - destruct (index_of (length (rf s)) a) as [i|] eqn:Ei; [|discriminate].
    intros Hr. cbn. unfold bind, Demo._read, py_index. rewrite Ei.
    destruct (lookup_lt_is_Some_2 (rf s) i (index_of_lt _ _ _ Ei)) as [v Hv].
    rewrite Hv. cbn.
    eexists. split; [reflexivity|]. unfold same_control. cbn.
    rewrite dispatches_snoc, Nat.add_0_r.
    split; [repeat split|]. split; [apply bus_accesses_snoc|].
    unfold resolved. rewrite list_fmap_insert. auto.
  - destruct (resolved (futures s) !! df) as [[|]|] eqn:Ed; try discriminate.
    destruct (index_of (length (rf s)) a) as [i|] eqn:Ei; [|discriminate].
    intros Hr. apply resolved_lookup in Ed as [v Hv].
    cbn. unfold bind, Demo.DI_future_val, future_done. rewrite Hv.
    unfold Demo._write, py_index. cbn. rewrite Ei.
    eexists. split; [reflexivity|]. unfold same_control. cbn.
    rewrite length_insert, dispatches_snoc, Nat.add_0_r.
    split; [repeat split|]. split; [apply bus_accesses_snoc|]. auto.
Qed.

(** A runnable queue runs to the end without an exception and without
    a nested dispatch; the bus sees its accesses in queue order. *)
Lemma run_runnable xs : forall s,
  runnable (length (rf s)) (resolved (futures s)) xs = true ->
  exists s',
    Demo.run nested xs s = (s', Ok tt) /\ same_control s s' /\
    bus_accesses (stdout s') = bus_accesses (stdout s) ++ map oper_access xs /\
    dispatches (stdout s') = dispatches (stdout s) /\
    resolved (futures s') = res_after (resolved (futures s)) xs.
Proof.
  induction xs as [|x xs IH]; intros s Hr.
  - exists s. cbn. rewrite app_nil_r. auto using same_control_refl.
  - destruct (call_runnable x xs s Hr) as (s1 & Hc & Hs1 & Ha1 & Hd1 & Hf1 & Hr1).
    destruct (IH s1 Hr1) as (s2 & Hrun & Hs2 & Ha2 & Hd2 & Hf2).
    exists s2. cbn [Demo.run]. unfold bind. rewrite Hc.
    split; [exact Hrun|]. split; [eapply same_control_trans; eassumption|].
    split; [rewrite Ha2, Ha1, <- app_assoc; reflexivity|].
    split; congruence.
Qed.
End Run.

Lemma dispatch_unfold depth :
  Demo.dispatch depth = Demo.dispatch_body (nested_dispatch depth).
Proof. destruct depth; reflexivity. Qed.

(** One [dispatch()] of a runnable queue: every operation runs, in queue
    order, the queue is emptied, and no further dispatch is started. *)
Lemma dispatch_runnable depth s :
  runnable (length (rf s)) (resolved (futures s)) (opers s) = true ->
  exists s',
    Demo.dispatch depth s = (s', Ok tt) /\
    opers s' = [] /\ rmw_addr s' = rmw_addr s /\
    bus_accesses (stdout s') = bus_accesses (stdout s) ++ map oper_access (opers s) /\
    dispatches (stdout s') = S (dispatches (stdout s)) /\
    resolved (futures s') = res_after (resolved (futures s)) (opers s) /\
    length (rf s') = length (rf s) /\
    pending_write s' = pending_write s.
Proof.
  intros Hr. rewrite dispatch_unfold. unfold Demo.dispatch_body.
  destruct (opers s) as [|x xs] eqn:Eo.
  - eexists. split; [reflexivity|]. cbn.
    rewrite bus_accesses_snoc, dispatches_snoc. cbn. rewrite !app_nil_r.
    repeat split; try assumption. lia.
  - destruct (run_runnable (nested_dispatch depth) (x :: xs) (print BeforeDispatch s))
      as (s1 & Hrun & Hs1 & Ha1 & Hd1 & Hf1); [exact Hr|].
    unfold bind. rewrite Hrun.
    eexists. split; [reflexivity|].
    unfold pending_write.
    cbn [opers rmw_addr rmw_df rmw_mask rmw_nval stdout futures rf set_opers print].
    destruct Hs1 as (_ & Hdf & Haddr & Hmask & Hnval & Hlen). cbn in Hdf, Haddr, Hmask, Hnval.
    rewrite bus_accesses_snoc, dispatches_snoc, Ha1, Hd1, Hf1, Hdf, Haddr, Hmask, Hnval.
    cbn.
    rewrite bus_accesses_snoc, dispatches_snoc, !app_nil_r. cbn.
    repeat split; try assumption. lia.
Qed.

Lemma read_flush depth addr s :
  Demo.read depth addr s = bind (flush depth) (fun _ => Demo._read addr) s.
Proof.
  unfold Demo.read, flush, bind. destruct (Demo.rmw None 0 0 s) as [s1 [[]|e]]; [|reflexivity].
  destruct (Demo.dispatch_if_opers depth s1) as [s2 [[]|e]]; reflexivity.
Qed.

Lemma write_flush depth addr val s :
  Demo.write depth addr val s = bind (flush depth) (fun _ => Demo._write addr val) s.
Proof.
  unfold Demo.write, flush, bind. destruct (Demo.rmw None 0 0 s) as [s1 [[]|e]]; [|reflexivity].
  destruct (Demo.dispatch_if_opers depth s1) as [s2 [[]|e]]; reflexivity.
Qed.

Lemma flush_ready depth s :
  ready s ->
  exists s2,
    flush depth s = (s2, Ok tt) /\
    opers s2 = [] /\ rmw_addr s2 = None /\
    bus_accesses (stdout s2) =
      bus_accesses (stdout s) ++ map oper_access (opers s ++ pending_write s) /\
    dispatches (stdout s2) =
      (dispatches (stdout s) +
       match opers s ++ pending_write s with [] => 0 | _ => 1 end)%nat /\
    length (rf s2) = length (rf s).
Proof.
  intros Hr. unfold flush, bind. rewrite rmw_finalize.
  unfold Demo.dispatch_if_opers.
  assert (Hrf : rf (finalized s) = rf s /\ futures (finalized s) = futures s /\
                stdout (finalized s) = stdout s).
  { unfold finalized. destruct (rmw_addr s); repeat split. }
  destruct Hrf as (Hrf & Hfu & Hso).
  destruct (opers (finalized s)) as [|x xs] eqn:Eo.
  - exists (finalized s). rewrite finalized_opers in Eo. rewrite Eo, Hso. cbn.
    rewrite app_nil_r, Nat.add_0_r.
    repeat split;
      [rewrite finalized_opers; exact Eo | apply finalized_idle | congruence].
  - destruct (dispatch_runnable depth (finalized s))
      as (s2 & Hd & Ho & Ha & Hb & Hc & _ & Hl & _).
    { rewrite Hrf, Hfu, finalized_opers. exact Hr. }
    exists s2. rewrite finalized_idle in Ha.
    rewrite Hb, Hc, Hso, finalized_opers.
    rewrite finalized_opers in Eo. rewrite Eo.
    repeat split; try assumption; [lia | congruence].
Qed.

(** C6. In every state, [read(addr)] and [write(addr, val)] are the
    flush (finalization of the pending RMW, then a dispatch if anything
    is queued) followed by the raw bus access [_read] / [_write]; an
    exception in the flush ends the call before the access.  When the
    queue can run, the flush ends in a state [s2] where nothing is queued
    or pending, it has started one dispatch if there was anything to run
    and none otherwise, and the bus has seen every queued operation in
    FIFO order followed by the pending RMW's write; the access of the
    call itself comes after all of them. *)
Theorem immediate_access_after_flush (depth : nat) (s : DemoIface) (addr : Z)
    (val : pyval) :
  Demo.read depth addr s = bind (flush depth) (fun _ => Demo._read addr) s /\
  Demo.write depth addr val s = bind (flush depth) (fun _ => Demo._write addr val) s /\
  (ready s ->
   exists s2,
     flush depth s = (s2, Ok tt) /\
     opers s2 = [] /\ rmw_addr s2 = None /\
     bus_accesses (stdout s2) =
       bus_accesses (stdout s) ++ map oper_access (opers s ++ pending_write s) /\
     dispatches (stdout s2) =
       (dispatches (stdout s) +
        match opers s ++ pending_write s with [] => 0 | _ => 1 end)%nat /\
     Demo.read depth addr s = Demo._read addr s2 /\
     Demo.write depth addr val s = Demo._write addr val s2 /\
     (forall s' v, Demo.read depth addr s = (s', Ok v) ->
        bus_accesses (stdout s') =
          bus_accesses (stdout s) ++ map oper_access (opers s ++ pending_write s)
                                  ++ [Load addr]) /\
     (forall s', Demo.write depth addr val s = (s', Ok tt) ->
        bus_accesses (stdout s') =
          bus_accesses (stdout s) ++ map oper_access (opers s ++ pending_write s)
                                  ++ [Store addr])).
Proof.
  split; [apply read_flush|]. split; [apply write_flush|].
  intros Hr. destruct (flush_ready depth s Hr) as (s2 & Hf & Ho & Ha & Hb & Hd & _).
  exists s2. rewrite read_flush, write_flush. unfold bind. rewrite Hf.
  repeat (split; [assumption || reflexivity|]).
  split.
  - intros s' v. unfold Demo._read.
    destruct (py_index (rf s2) addr) as [i|]; [|discriminate].
    destruct (rf s2 !! i) as [w|]; [|discriminate].
    intros [= <- _]. cbn. rewrite bus_accesses_snoc, Hb, <- app_assoc. reflexivity.
  - intros s'. unfold Demo._write. destruct val as [v|l]; [|discriminate].
    destruct (py_index (rf (print (Writing v addr) s2)) addr) as [i|]; [|discriminate].
    intros [= <-]. cbn. rewrite bus_accesses_snoc, Hb, <- app_assoc. reflexivity.
Qed.

Lemma busy_state_reached :
  bind (Demo.writex 3 (VInt 7)) (fun _ => Demo.rmw (Some 1) 0x0F 0x05)
       (DemoIface_init rf0) = (busy_state, Ok tt).
Proof. reflexivity. Qed.

Lemma immediate_access_after_flush_witness :
  ready busy_state /\
  exists s2,
    flush 0 busy_state = (s2, Ok tt) /\
    bus_accesses (stdout s2) = [Store 3; Load 1; Store 1] /\
    Demo.read 0 1 busy_state = Demo._read 1 s2 /\
    Demo.write 0 1 (VInt 9) busy_state = Demo._write 1 (VInt 9) s2.
Proof.
  assert (Hr : ready busy_state) by (vm_compute; reflexivity).
  split; [exact Hr|].
  destruct (proj2 (proj2 (immediate_access_after_flush 0 busy_state 1 (VInt 9))) Hr)
    as (s2 & Hf & _ & _ & Hb & _ & Hrd & Hwr & _).
  exists s2. repeat split; assumption.
Defined.

(** ** Futures *)

(** C7. [val] on a resolved future returns the stored value and leaves
    the state alone.  On an unresolved one it makes one [dispatch()] call
    and looks again: the value if the future is resolved now, the
    "not set" error if it is not (a failing dispatch propagates).  When
    the queue can run, that one dispatch is the only one started, it
    resolves the future if its read was queued, and leaves it unresolved
    (so [val] raises) if no read for it was. *)
Theorem future_val_spec (depth : nat) (df : nat) (s : DemoIface) :
  (forall v, future_done s df = Some v -> Demo.val depth df s = (s, Ok v)) /\
  (future_done s df = None ->
   Demo.val depth df s =
   match Demo.dispatch depth s with
   | (s', Ok _) =>
     match future_done s' df with
     | Some v => (s', Ok v)
     | None => (s', Err Unresolved)
     end
   | (s', Err e) => (s', Err e)
   end) /\
  (future_done s df = None ->
   runnable (length (rf s)) (resolved (futures s)) (opers s) = true ->
   exists s',
     Demo.dispatch depth s = (s', Ok tt) /\
     dispatches (stdout s') = S (dispatches (stdout s)) /\
     ((exists a, OpReadSet df a ∈ opers s) -> (df < length (futures s))%nat ->
      exists v, Demo.val depth df s = (s', Ok v) /\ future_done s' df = Some v) /\
     ((forall a, OpReadSet df a ∉ opers s) ->
      Demo.val depth df s = (s', Err Unresolved))).
Proof.
  assert (Hun : future_done s df = None ->
                Demo.val depth df s =
                match Demo.dispatch depth s with
                | (s', Ok _) =>
                  match future_done s' df with
                  | Some v => (s', Ok v)
                  | None => (s', Err Unresolved)
                  end
                | (s', Err e) => (s', Err e)
                end).
  { intros Hn. unfold Demo.val, Demo.DI_future_val, bind. rewrite Hn.
    destruct (Demo.dispatch depth s) as [s' [[]|e]]; reflexivity. }
  split; [|split; [exact Hun|]].
  - intros v Hv. unfold Demo.val, Demo.DI_future_val. rewrite Hv. reflexivity.
  - intros Hn Hr.
    destruct (dispatch_runnable depth s Hr) as (s' & Hd & _ & _ & _ & Hc & Hf & _ & _).
    exists s'. split; [exact Hd|]. split; [exact Hc|].
    rewrite (Hun Hn), Hd. split.
    + intros [a Hin] Hlt.
      assert (Hres : resolved (futures s') !! df = Some true).
      { rewrite Hf. apply (res_after_sets _ _ _ a Hin).
        unfold resolved. rewrite length_fmap. exact Hlt. }
      apply future_done_resolved in Hres as [v Hv].
      exists v. rewrite Hv. split; reflexivity.
    + intros Hno.
      destruct (future_done s' df) as [v|] eqn:Hv; [|reflexivity].
      exfalso.
      assert (Hres : resolved (futures s') !! df = Some true)
        by (apply future_done_resolved; eauto).
      rewrite Hf, res_after_untouched in Hres by exact Hno.
      apply future_done_resolved in Hres as [w Hw]. congruence.
Qed.

Lemma future_val_spec_witness :
  future_done after_readx 0 = None /\
  runnable (length (rf after_readx)) (resolved (futures after_readx))
           (opers after_readx) = true /\
  exists s',
    Demo.dispatch 0 after_readx = (s', Ok tt) /\
    dispatches (stdout s') = 1%nat /\
    exists v, Demo.val 0 0 after_readx = (s', Ok v) /\ future_done s' 0 = Some v.
Proof.
  assert (Hn : future_done after_readx 0 = None) by reflexivity.
  assert (Hr : runnable (length (rf after_readx)) (resolved (futures after_readx))
                        (opers after_readx) = true) by (vm_compute; reflexivity).
  split; [exact Hn|]. split; [exact Hr|].
  destruct (future_val_spec 0 0 after_readx) as (_ & _ & H3).
  destruct (H3 Hn Hr) as (s' & Hd & Hc & Hyes & _).
  exists s'. split; [exact Hd|]. split; [exact Hc|].
  apply Hyes; [|cbn; lia].
  exists 5. apply list_elem_of_singleton. reflexivity.
Defined.

(** ** Bitfields of a status register *)

Lemma write_quiescent depth a v s :
  opers s = [] -> rmw_addr s = None ->
  Demo.write depth a v s = Demo._write a v s.
Proof.
  intros Ho Ha. unfold Demo.write, bind. rewrite rmw_finalize.
  unfold finalized, Demo.dispatch_if_opers. rewrite Ha, Ho.
  destruct (Demo._write a v s) as [s' [[]|e]]; reflexivity.
Qed.




(** The same call, evaluated: register 13 ends up holding 0xB0. *)
Example status_bitfield_write_run :
  let I := DemoIface_Iface 0 in
  exists s', Register_bitfield_write status_r1 "t2" 11 (DemoIface_init rf0) = (s', Ok tt) /\
             rf s' !! 13%nat = Some 0xB0 /\
             stdout s' = [Reading 13 0; Writing 0xB0 13].
Proof. eexists. split; [vm_compute; reflexivity|]. split; reflexivity. Qed.

(** ** Identity and version check *)

(** On any bus, the field loop of [verify_id_and_version] makes no bus
    call: it returns in the state it was given. *)
Lemma visit_fields_no_bus `{Iface St} cls base keys (s : St) :
  exists r, visit_fields cls base keys s = (s, r).
Proof.
  induction keys as [|k keys IH]; cbn.
  - eexists. reflexivity.
  - unfold bind, lift. destruct (Block_getattr cls base k) as [a|e].
    + destruct a; exact IH.
    + eexists. reflexivity.
Qed.

(** What the check amounts to once the field loop has passed: nothing
    for a blackbox, the block's own two registers otherwise. *)
Lemma verify_own_registers_only `{Iface St} cls base (s : St) :
  visit_fields cls base (dict_keys (x__fields cls)) s = (s, Ok tt) ->
  verify_id_and_version cls base s =
  if x__is_blackbox cls then (s, Ok tt)
  else bind (Block_verify_id cls base) (fun _ => Block_verify_ver cls base) s.
Proof.
  intros Hv. unfold verify_id_and_version, bind at 1. rewrite Hv.
  destruct (x__is_blackbox cls); reflexivity.
Qed.

(** C5 (the code departs from it). [MAIN.verify_id_and_version()]
    returns normally although its non-blackbox sub-block [LINK0] has the
    wrong ID: only [MAIN]'s own ID and VER registers (addresses 0 and 1)
    are read.  The sub-block's own check, which the walk never makes,
    raises the mismatch error. *)
Theorem verify_skips_subblocks :
  let I := DemoIface_Iface 0 in
  let s := DemoIface_init rf_bad_link in
  Block_getattr MAIN 0 "LINK0" = Ok (ABlock LINK 2) /\
  x__is_blackbox LINK = false /\
  (exists s', verify_id_and_version MAIN 0 s = (s', Ok tt) /\
              stdout s' = [Reading 0 0xAA; Reading 1 1]) /\
  (exists s', verify_id_and_version LINK 2 s = (s', Err IdentityMismatch)).
Proof.
  cbv zeta. split; [reflexivity|]. split; [reflexivity|]. split.
  - eexists. split; [vm_compute; reflexivity | reflexivity].
  - eexists. vm_compute. reflexivity.
Qed.

(** ** Readiness is an invariant of the interface *)

Lemma covers_refl res : covers res res.
Proof. split; [lia | auto]. Qed.

Lemma covers_insert res res' df :
  covers res res' -> covers (<[df := true]> res) (<[df := true]> res').
Proof.
  intros [Hlen Hc]. split; [rewrite !length_insert; exact Hlen|].
  intros d Hd. destruct (decide (df = d)) as [->|Hne].
  - apply list_lookup_insert_eq.
    apply lookup_lt_Some in Hd. rewrite length_insert in Hd. lia.
  - rewrite list_lookup_insert_ne in Hd by exact Hne.
    rewrite list_lookup_insert_ne by exact Hne. apply Hc. exact Hd.
Qed.

Lemma covers_snoc res : covers res (res ++ [false]).
Proof.
  split; [rewrite length_app; lia|].
  intros d Hd. rewrite lookup_app_l; [exact Hd|].
  apply lookup_lt_Some in Hd. exact Hd.
Qed.

Lemma runnable_mono n xs : forall res res',
  covers res res' -> runnable n res xs = true -> runnable n res' xs = true.
Proof.
  induction xs as [|x xs IH]; intros res res' Hc; [reflexivity|].
  destruct x as [a [v|l]|df a|[df|] a m k]; cbn; try discriminate.
  - destruct (index_of n a); [apply IH; exact Hc | discriminate].
  - destruct (index_of n a); [|discriminate].
    apply IH. apply covers_insert. exact Hc.
  - destruct (res !! df) as [[|]|] eqn:Ed; try discriminate.
    rewrite (proj2 Hc _ Ed).
    destruct (index_of n a); [apply IH; exact Hc | discriminate].
Qed.

Lemma res_after_length xs : forall res, length (res_after res xs) = length res.
Proof.
  induction xs as [|x xs IH]; intros res; [reflexivity|].
  destruct x; cbn; rewrite IH, ?length_insert; reflexivity.
Qed.

Lemma runnable_app n xs : forall res ys,
  runnable n res (xs ++ ys) =
  runnable n res xs && runnable n (res_after res xs) ys.
Proof.
  induction xs as [|x xs IH]; intros res ys; [reflexivity|].
  destruct x as [a [v|l]|df a|[df|] a m k]; cbn; try reflexivity.
  - destruct (index_of n a); [apply IH | reflexivity].
  - destruct (index_of n a); [apply IH | reflexivity].
  - destruct (res !! df) as [[|]|]; try reflexivity.
    destruct (index_of n a); [apply IH | reflexivity].
Qed.

Lemma resolved_snoc f : resolved (f ++ [None]) = resolved f ++ [false].
Proof. unfold resolved. rewrite fmap_app. reflexivity. Qed.

Lemma resolved_length f : length (resolved f) = length f.
Proof. unfold resolved. apply length_fmap. Qed.

Lemma ready_init regs : ready (DemoIface_init regs).
Proof. reflexivity. Qed.

(** A state with nothing queued and nothing pending is ready. *)
Lemma ready_quiescent s : opers s = [] -> rmw_addr s = None -> ready s.
Proof.
  intros Ho Ha. unfold ready, pending_write. rewrite Ho, Ha. reflexivity.
Qed.

Lemma finalized_data s :
  rf (finalized s) = rf s /\ futures (finalized s) = futures s /\
  pending_write (finalized s) = [].
Proof.
  split; [|split].
  - unfold finalized. destruct (rmw_addr s); reflexivity.
  - unfold finalized. destruct (rmw_addr s); reflexivity.
  - unfold pending_write. rewrite finalized_idle. reflexivity.
Qed.

Lemma ready_finalized s : ready s -> ready (finalized s).
Proof.
  unfold ready. destruct (finalized_data s) as (-> & -> & ->).
  rewrite finalized_opers, app_nil_r. auto.
Qed.

(** A read of an address in range can be queued behind a ready queue,
    followed by an RMW write that waits for it. *)
Lemma runnable_read_then_rmw n res xs a m k :
  is_Some (index_of n a) ->
  runnable n res xs = true ->
  runnable n (res ++ [false])
           (xs ++ [OpReadSet (length res) a; OpRmw (Some (length res)) a m k]) = true.
Proof.
  intros [i Hi] Hr. rewrite runnable_app.
  rewrite (runnable_mono n xs res _ (covers_snoc res) Hr). cbn. rewrite Hi.
  rewrite list_lookup_insert_eq; [reflexivity|].
  rewrite res_after_length, length_app. cbn. lia.
Qed.

Lemma ready_rmw s a m v :
  ready s -> is_Some (index_of (length (rf s)) a) ->
  exists s', Demo.rmw (Some a) m v s = (s', Ok tt) /\ ready s' /\
             length (rf s') = length (rf s).
Proof.
  unfold ready. intros Hr Ha. destruct (rmw_addr s) as [A|] eqn:Ec.
  - destruct (decide (a = A)) as [->|Hne].
    + rewrite (rmw_same s A m v Ec). eexists. split; [reflexivity|].
      split; [|reflexivity].
      unfold pending_write in *. cbn. rewrite Ec in *.
      rewrite runnable_app in *. apply andb_true_iff in Hr as [H1 H2].
      rewrite H1. exact H2.
    + rewrite (rmw_divert s A a m v Ec Hne). eexists. split; [reflexivity|].
      split; [|reflexivity].
      unfold pending_write in *. cbn. rewrite Ec in Hr.
      rewrite resolved_snoc, <- (resolved_length (futures s)).
      rewrite <- app_assoc. cbn.
      replace (opers s ++ [OpRmw (rmw_df s) A (rmw_mask s) (rmw_nval s);
                           OpReadSet (length (resolved (futures s))) a;
                           OpRmw (Some (length (resolved (futures s)))) a
                             (Z.lor (rmw_mask s) (rmw_mask s))
                             (Z.lor (Z.lxor (Z.lor (rmw_nval s) (rmw_mask s)) (rmw_mask s))
                                    (Z.land v (rmw_mask s)))])
        with ((opers s ++ [OpRmw (rmw_df s) A (rmw_mask s) (rmw_nval s)]) ++
              [OpReadSet (length (resolved (futures s))) a;
               OpRmw (Some (length (resolved (futures s)))) a
                 (Z.lor (rmw_mask s) (rmw_mask s))
                 (Z.lor (Z.lxor (Z.lor (rmw_nval s) (rmw_mask s)) (rmw_mask s))
                        (Z.land v (rmw_mask s)))])
        by (rewrite <- app_assoc; reflexivity).
      apply runnable_read_then_rmw; assumption.
  - rewrite (rmw_idle s a m v Ec). eexists. split; [reflexivity|].
    split; [|reflexivity].
    unfold pending_write in *. cbn. rewrite Ec, app_nil_r in Hr.
    rewrite resolved_snoc, <- (resolved_length (futures s)), <- app_assoc. cbn.
    apply runnable_read_then_rmw; assumption.
Qed.

Lemma ready_writex s a v :
  ready s -> is_Some (index_of (length (rf s)) a) ->
  exists s', Demo.writex a (VInt v) s = (s', Ok tt) /\ ready s' /\
             length (rf s') = length (rf s).
Proof.
  intros Hr [i Hi]. apply ready_finalized in Hr.
  unfold Demo.writex, bind. rewrite rmw_finalize. unfold Demo.append_oper.
  eexists. split; [reflexivity|]. revert Hr. unfold ready, pending_write. cbn.
  rewrite finalized_idle, !app_nil_r.
  destruct (finalized_data s) as (-> & -> & _).
  intros Hr. split; [|reflexivity].
  rewrite runnable_app, Hr. cbn. rewrite Hi. reflexivity.
Qed.

Lemma ready_readx s a :
  ready s -> is_Some (index_of (length (rf s)) a) ->
  exists s' df, Demo.readx a s = (s', Ok df) /\ ready s' /\
                length (rf s') = length (rf s).
Proof.
  intros Hr [i Hi]. apply ready_finalized in Hr.
  unfold Demo.readx, bind. rewrite rmw_finalize.
  unfold Demo.new_future, Demo.append_oper, ret.
  eexists. eexists. split; [reflexivity|]. revert Hr. unfold ready, pending_write. cbn.
  rewrite finalized_idle, !app_nil_r.
  destruct (finalized_data s) as (-> & -> & _).
  intros Hr. split; [|reflexivity].
  rewrite resolved_snoc, runnable_app.
  rewrite (runnable_mono _ _ _ _ (covers_snoc _) Hr). cbn. rewrite Hi. reflexivity.
Qed.

Lemma ready_read depth s a :
  ready s ->
  ready (fst (Demo.read depth a s)) /\
  length (rf (fst (Demo.read depth a s))) = length (rf s).
Proof.
  intros Hr. destruct (flush_ready depth s Hr) as (s2 & Hf & Ho & Ha & _ & _ & Hl).
  rewrite read_flush. unfold bind. rewrite Hf. unfold Demo._read.
  destruct (py_index (rf s2) a) as [i|]; [destruct (rf s2 !! i)|]; cbn;
    (split; [apply ready_quiescent; assumption | exact Hl]).
Qed.

Lemma ready_write depth s a v :
  ready s ->
  ready (fst (Demo.write depth a (VInt v) s)) /\
  length (rf (fst (Demo.write depth a (VInt v) s))) = length (rf s).
Proof.
  intros Hr. destruct (flush_ready depth s Hr) as (s2 & Hf & Ho & Ha & _ & _ & Hl).
  rewrite write_flush. unfold bind. rewrite Hf. unfold Demo._write. cbn.
  destruct (py_index (rf s2) a) as [i|]; cbn; rewrite ?length_insert;
    (split; [apply ready_quiescent; assumption | exact Hl]).
Qed.

Lemma ready_dispatch depth s :
  ready s ->
  exists s', Demo.dispatch depth s = (s', Ok tt) /\ ready s' /\
             length (rf s') = length (rf s).
Proof.
  unfold ready. rewrite runnable_app. intros [H1 H2]%andb_true_iff.
  destruct (dispatch_runnable depth s H1) as (s' & Hd & Ho & _ & _ & _ & Hf & Hl & Hp).
  exists s'. split; [exact Hd|]. split; [|exact Hl].
  rewrite Ho, Hl, Hf, Hp. exact H2.
Qed.

Lemma ready_val depth s df :
  ready s ->
  ready (fst (Demo.val depth df s)) /\
  length (rf (fst (Demo.val depth df s))) = length (rf s).
Proof.
  intros Hr. unfold Demo.val, Demo.DI_future_val.
  destruct (future_done s df) as [v|]; [split; [exact Hr | reflexivity]|].
  destruct (ready_dispatch depth s Hr) as (s' & Hd & Hr' & Hl).
  unfold bind. rewrite Hd.
  destruct (future_done s' df); cbn; split; assumption.
Qed.

(** Every call whose address is inside the register file takes a ready
    state to a ready state, and keeps the size of the register file. *)
Theorem ready_kept depth c s :
  ready s -> api_in_range (length (rf s)) c ->
  ready (api_step depth c s) /\ length (rf (api_step depth c s)) = length (rf s).
Proof.
  intros Hr Hc. destruct c as [a|a v|a|a v|a m v| | |df]; cbn in *.
  - apply ready_read. exact Hr.
  - apply ready_write. exact Hr.
  - destruct (ready_readx s a Hr Hc) as (s' & df & -> & H1 & H2). auto.
  - destruct (ready_writex s a v Hr Hc) as (s' & -> & H1 & H2). auto.
  - destruct (ready_rmw s a m v Hr Hc) as (s' & -> & H1 & H2). auto.
  - rewrite rmw_finalize. cbn. split; [apply ready_finalized; exact Hr|].
    destruct (finalized_data s) as (-> & _). reflexivity.
  - destruct (ready_dispatch depth s Hr) as (s' & -> & H1 & H2). auto.
  - apply ready_val. exact Hr.
Qed.

(** Hence every state reached from a new interface by calls with
    addresses inside the register file is ready. *)
Theorem ready_reachable depth regs cs :
  Forall (api_in_range (length regs)) cs ->
  ready (api_run depth cs (DemoIface_init regs)).
Proof.
  assert (Hgen : forall cs s, ready s ->
            Forall (api_in_range (length (rf s))) cs -> ready (api_run depth cs s)).
  { clear cs. induction cs as [|c cs IH]; intros s Hr Hall; [exact Hr|].
    apply Forall_cons in Hall as [Hc Hall].
    destruct (ready_kept depth c s Hr Hc) as [Hr' Hl].
    cbn. apply IH; [exact Hr'|]. rewrite Hl. exact Hall. }
  intros Hall. apply Hgen; [apply ready_init | exact Hall].
Qed.

(** * Part III: further properties of the code *)

(** ** The descriptor constructor *)

(** X1. [BitField(msb, lsb, is_signed)] raises (on a negative shift
    count) exactly when [lsb < 0] or the field is narrower than one bit
    (signed) or than zero bits (unsigned); otherwise the descriptor has
    the two positions, a mask whose set bits are the positions
    [lsb..msb], and the two's-complement or unsigned bounds of its
    width. *)
Theorem BitField_init_spec (m l : Z) (is_signed : bool) :
  (BitField_init m l is_signed = Err ValueError <->
   l < 0 \/ m < (if is_signed then l else l - 1)) /\
  (forall bf, BitField_init m l is_signed = Ok bf ->
     lsb bf = l /\ msb bf = m /\
     (forall i, 0 <= i -> Z.testbit (mask bf) i = (l <=? i) && (i <=? m)) /\
     if is_signed
     then sign_mask bf = 2 ^ (m - l) /\ vmin bf = - 2 ^ (m - l) /\
          vmax bf = 2 ^ (m - l) - 1
     else sign_mask bf = 0 /\ vmin bf = 0 /\ vmax bf = 2 ^ (m - l + 1) - 1).
Proof.
  split.
  - unfold BitField_init, one_shl.
    destruct is_signed;
      repeat match goal with
             | |- context [ ?a <? ?b ] => destruct (Z.ltb_spec a b)
             end; split; intros Hgoal; try discriminate Hgoal; try reflexivity; lia.
  - intros bf Hinit. apply BitField_init_wf in Hinit as (Hwf & Hm & Hl).
    split; [exact Hl|]. split; [exact Hm|]. split.
    + intros i Hi. rewrite <- Hm, <- Hl. apply (mask_testbit bf is_signed Hwf i Hi).
    + subst m l. destruct is_signed.
      * destruct (wf_signed _ _ Hwf eq_refl) as (_ & H1 & H2 & H3). auto.
      * destruct (wf_unsigned _ _ Hwf eq_refl) as (H1 & H2 & H3). auto.
Qed.

Lemma BitField_init_spec_witness :
  BitField_init 7 4 true = Ok field_s_7_4 /\
  lsb field_s_7_4 = 4 /\ msb field_s_7_4 = 7 /\
  (forall i, 0 <= i -> Z.testbit (mask field_s_7_4) i = (4 <=? i) && (i <=? 7)) /\
  sign_mask field_s_7_4 = 2 ^ (7 - 4) /\ vmin field_s_7_4 = - 2 ^ (7 - 4) /\
  vmax field_s_7_4 = 2 ^ (7 - 4) - 1.
Proof.
  split; [reflexivity|].
  exact (proj2 (BitField_init_spec 7 4 true) field_s_7_4 eq_refl).
Defined.

(** ** More of the codec *)

Section Codec.
Variable bf : BitField.
Variable is_signed : bool.
Hypothesis Hwf : BitField_wf bf is_signed.

(** The field as it is cut out of a word, before sign extension. *)
Lemma extract_range raw :
  0 <= Z.shiftr (Z.land raw (mask bf)) (lsb bf) < 2 ^ (msb bf - lsb bf + 1).
Proof.
  pose proof (wf_lsb _ _ Hwf) as Hl. pose proof (wf_msb _ _ Hwf) as Hm.
  assert (Heq : Z.shiftr (Z.land raw (mask bf)) (lsb bf) =
                Z.shiftr raw (lsb bf) mod 2 ^ (msb bf - lsb bf + 1)).
  { rewrite <- Z.land_ones by lia. apply Z.bits_inj'. intros i Hi.
    rewrite Z.shiftr_spec, !Z.land_spec, Z.shiftr_spec,
      (mask_testbit bf is_signed Hwf), Z.testbit_ones_nonneg by lia.
    destruct (Z.leb_spec (lsb bf) (i + lsb bf)); [|lia].
    destruct (Z.leb_spec (i + lsb bf) (msb bf)),
             (Z.ltb_spec i (msb bf - lsb bf + 1)); try lia; reflexivity. }
  rewrite Heq. apply Z.mod_pos_bound. apply Z.pow_pos_nonneg; lia.
Qed.

Lemma extract_testbit raw i :
  0 <= i ->
  Z.testbit (Z.shiftr (Z.land raw (mask bf)) (lsb bf)) i =
  Z.testbit raw (i + lsb bf) && (i + lsb bf <=? msb bf).
Proof.
  intros Hi. pose proof (wf_lsb _ _ Hwf) as Hl.
  rewrite Z.shiftr_spec, Z.land_spec, (mask_testbit bf is_signed Hwf) by lia.
  destruct (Z.leb_spec (lsb bf) (i + lsb bf)); [reflexivity | lia].
Qed.

(** [decode] looks at the bits [lsb..msb] of the word only. *)
Lemma decode_ext w w' :
  (forall i, lsb bf <= i <= msb bf -> Z.testbit w i = Z.testbit w' i) ->
  decode bf w = decode bf w'.
Proof.
  intros Hag. unfold decode.
  assert (Hx : Z.shiftr (Z.land w (mask bf)) (lsb bf) =
               Z.shiftr (Z.land w' (mask bf)) (lsb bf)).
  { apply Z.bits_inj'. intros i Hi. rewrite !extract_testbit by exact Hi.
    pose proof (wf_lsb _ _ Hwf).
    destruct (Z.leb_spec (i + lsb bf) (msb bf)).
    - rewrite Hag by lia. reflexivity.
    - rewrite !andb_false_r. reflexivity. }
  rewrite Hx. reflexivity.
Qed.

Lemma decode_range raw : vmin bf <= decode bf raw <= vmax bf.
Proof.
  unfold decode. pose proof (extract_range raw) as Hx.
  set (x := Z.shiftr (Z.land raw (mask bf)) (lsb bf)) in *.
  destruct is_signed eqn:Es.
  - destruct (wf_signed _ _ Hwf eq_refl) as (Hw & Hsm & Hlo & Hhi).
    assert (Hp : 2 ^ (msb bf - lsb bf + 1) = 2 * 2 ^ (msb bf - lsb bf))
      by (rewrite Z.pow_add_r by lia; lia).
    assert (H2 : 0 < 2 ^ (msb bf - lsb bf)) by (apply Z.pow_pos_nonneg; lia).
    rewrite Hsm, Hlo, Hhi. rewrite Z.shiftl_mul_pow2, Z.pow_1_r by lia.
    destruct (Z.eqb_spec (2 ^ (msb bf - lsb bf)) 0); [lia|].
    rewrite land_pow2_eq0 by lia. rewrite testbit_top by lia.
    destruct (Z.leb_spec (2 ^ (msb bf - lsb bf)) x); cbn; lia.
  - destruct (wf_unsigned _ _ Hwf eq_refl) as (Hsm & Hlo & Hhi).
    rewrite Hsm, Hlo, Hhi. cbn. lia.
Qed.

(** Converting the decoded value back gives the raw field. *)
Lemma wrap_decode raw :
  wrap_negative bf (decode bf raw) = Z.shiftr (Z.land raw (mask bf)) (lsb bf).
Proof.
  unfold decode, wrap_negative. pose proof (extract_range raw) as Hx.
  set (x := Z.shiftr (Z.land raw (mask bf)) (lsb bf)) in *.
  destruct is_signed eqn:Es.
  - destruct (wf_signed _ _ Hwf eq_refl) as (Hw & Hsm & Hlo & Hhi).
    assert (Hp : 2 ^ (msb bf - lsb bf + 1) = 2 * 2 ^ (msb bf - lsb bf))
      by (rewrite Z.pow_add_r by lia; lia).
    assert (H2 : 0 < 2 ^ (msb bf - lsb bf)) by (apply Z.pow_pos_nonneg; lia).
    rewrite Hsm. rewrite Z.shiftl_mul_pow2, Z.pow_1_r by lia.
    destruct (Z.eqb_spec (2 ^ (msb bf - lsb bf)) 0); [lia|].
    rewrite land_pow2_eq0 by lia. rewrite testbit_top by lia.
    destruct (Z.leb_spec (2 ^ (msb bf - lsb bf)) x); cbn.
    + destruct (Z.ltb_spec (x - 2 ^ (msb bf - lsb bf) * 2) 0); lia.
    + destruct (Z.ltb_spec x 0); lia.
  - destruct (wf_unsigned _ _ Hwf eq_refl) as (Hsm & Hlo & Hhi).
    rewrite Hsm. reflexivity.
Qed.

Lemma insert_extracted raw :
  insert_field bf raw (Z.shiftr (Z.land raw (mask bf)) (lsb bf)) = raw.
Proof.
  pose proof (wf_lsb _ _ Hwf) as Hl.
  apply Z.bits_inj'. intros i Hi. unfold insert_field.
  rewrite Z.lor_spec, Z.lxor_spec, Z.lor_spec, Z.land_spec,
    (mask_testbit bf is_signed Hwf) by lia.
  destruct (Z.leb_spec (lsb bf) i); cbn.
  - rewrite Z.shiftl_spec, extract_testbit by lia.
    replace (i - lsb bf + lsb bf) with i by lia.
    destruct (Z.leb_spec i (msb bf)), (Z.testbit raw i); reflexivity.
  - rewrite Z.shiftl_spec_low by lia.
    destruct (Z.testbit raw i); reflexivity.
Qed.
End Codec.

(** X2. Whatever the register word, the value decoded through a
    descriptor lies inside its [vmin..vmax]. *)
Theorem decode_in_range (m l : Z) (is_signed : bool) (bf : BitField) (raw : Z) :
  BitField_init m l is_signed = Ok bf ->
  vmin bf <= decode bf raw <= vmax bf.
Proof.
  intros Hinit. apply BitField_init_wf in Hinit as (Hwf & _).
  exact (decode_range bf is_signed Hwf raw).
Qed.

Lemma decode_in_range_witness :
  vmin field_s_7_4 <= decode field_s_7_4 0xFFFF <= vmax field_s_7_4.
Proof. apply (decode_in_range 7 4 true). reflexivity. Defined.

(** X3. Writing back the value just read changes nothing: encoding
    [decode raw] into [raw] is accepted and gives [raw] again. *)
Theorem encode_decoded_is_identity (m l : Z) (is_signed : bool) (bf : BitField)
    (raw : Z) :
  BitField_init m l is_signed = Ok bf ->
  encode bf (decode bf raw) raw = Ok raw.
Proof.
  intros Hinit. apply BitField_init_wf in Hinit as (Hwf & _).
  unfold encode.
  rewrite (proj2 (out_of_range_false bf _) (decode_range bf is_signed Hwf raw)).
  rewrite (wrap_decode bf is_signed Hwf), (insert_extracted bf is_signed Hwf).
  reflexivity.
Qed.

Lemma encode_decoded_is_identity_witness :
  encode field_s_7_4 (decode field_s_7_4 0xABCD) 0xABCD = Ok 0xABCD.
Proof. apply (encode_decoded_is_identity 7 4 true). reflexivity. Defined.

(** X4. Encoding a value into one bitfield leaves every bit outside that
    field as it was, so the value decoded through any other field of the
    register that shares no position with it is unchanged. *)
Theorem encode_keeps_other_fields (m l m' l' : Z) (sg sg' : bool)
    (bf bf' : BitField) (v raw w : Z) :
  BitField_init m l sg = Ok bf ->
  BitField_init m' l' sg' = Ok bf' ->
  disjoint_fields bf bf' ->
  encode bf v raw = Ok w ->
  (forall i, 0 <= i -> i < lsb bf \/ msb bf < i -> Z.testbit w i = Z.testbit raw i) /\
  decode bf' w = decode bf' raw.
Proof.
  intros Hi Hi' Hdis Henc.
  apply BitField_init_wf in Hi as (Hwf & _), Hi' as (Hwf' & _).
  unfold encode in Henc. destruct (out_of_range bf v); [discriminate|].
  injection Henc as <-.
  assert (Hout : forall i, 0 <= i -> i < lsb bf \/ msb bf < i ->
             Z.testbit (insert_field bf raw (wrap_negative bf v)) i = Z.testbit raw i)
    by (intros i H0 Ho; apply (insert_field_outside bf sg Hwf); assumption).
  split; [exact Hout|].
  apply (decode_ext bf' sg' Hwf'). intros i Hr.
  pose proof (wf_lsb _ _ Hwf'). apply Hout; [lia|].
  unfold disjoint_fields in Hdis. lia.
Qed.

Lemma encode_keeps_other_fields_witness :
  decode field_u_9_4 0x1A4 = decode field_u_9_4 0x1A0.
Proof.
  apply (proj2 (encode_keeps_other_fields 3 1 9 4 false false
                  (MkBitField 1 3 0 0 7 14) field_u_9_4 2 0x1A0 0x1A4
                  eq_refl eq_refl ltac:(left; cbn; lia) eq_refl)).
Defined.

(** ** The register file behind [read] and [write] *)

Lemma index_of_None n a :
  index_of n a = None <-> a < - Z.of_nat n \/ Z.of_nat n <= a.
Proof.
  unfold index_of.
  destruct (Z.leb_spec 0 a).
  - destruct (Z.ltb_spec a (Z.of_nat n)); split; intros H1; try discriminate H1;
      try reflexivity; lia.
  - destruct (Z.leb_spec (- Z.of_nat n) a); split; intros H1; try discriminate H1;
      try reflexivity; lia.
Qed.

Lemma index_of_alias n a :
  - Z.of_nat n <= a < 0 -> index_of n a = index_of n (a + Z.of_nat n).
Proof.
  intros Ha. unfold index_of.
  destruct (Z.leb_spec 0 a); [lia|].
  destruct (Z.leb_spec (- Z.of_nat n) a); [|lia].
  destruct (Z.leb_spec 0 (a + Z.of_nat n)); [|lia].
  destruct (Z.ltb_spec (a + Z.of_nat n) (Z.of_nat n)); [|lia].
  f_equal. lia.
Qed.

Lemma read_after_flush depth a s s2 :
  flush depth s = (s2, Ok tt) -> Demo.read depth a s = Demo._read a s2.
Proof. intros Hf. rewrite read_flush. unfold bind. rewrite Hf. reflexivity. Qed.

Lemma write_after_flush depth a v s s2 :
  flush depth s = (s2, Ok tt) -> Demo.write depth a v s = Demo._write a v s2.
Proof. intros Hf. rewrite write_flush. unfold bind. rewrite Hf. reflexivity. Qed.

Lemma flush_quiescent depth s : quiescent s -> flush depth s = (s, Ok tt).
Proof.
  intros [Ho Ha]. unfold flush, bind. rewrite rmw_finalize.
  unfold finalized, Demo.dispatch_if_opers. rewrite Ha, Ho. reflexivity.
Qed.

Lemma _read_in_range a s i :
  py_index (rf s) a = Some i ->
  exists old, rf s !! i = Some old /\
              Demo._read a s = (print (Reading a old) s, Ok old).
Proof.
  intros Hi. destruct (lookup_lt_is_Some_2 (rf s) i) as [old Ho].
  { apply (index_of_lt _ a). exact Hi. }
  exists old. split; [exact Ho|]. unfold Demo._read. rewrite Hi, Ho. reflexivity.
Qed.

Lemma _write_in_range a v s i :
  py_index (rf s) a = Some i ->
  Demo._write a (VInt v) s =
  (set_rf (<[i := v]> (rf s)) (print (Writing v a) s), Ok tt).
Proof. intros Hi. unfold Demo._write. cbn. rewrite Hi. reflexivity. Qed.

(** X5. Once the queue has been flushed, [read] and [write] raise
    IndexError exactly for an address outside [-n, n), [n] being the size
    of the register file; an address in [-n, 0) names the same word as
    that address plus [n], so both read the same value. *)
Theorem immediate_access_bounds (depth : nat) (s : DemoIface) (a v : Z) :
  ready s ->
  let n := Z.of_nat (length (rf s)) in
  (snd (Demo.read depth a s) = Err IndexError <-> a < - n \/ n <= a) /\
  (snd (Demo.write depth a (VInt v) s) = Err IndexError <-> a < - n \/ n <= a) /\
  (- n <= a < 0 -> snd (Demo.read depth a s) = snd (Demo.read depth (a + n) s)).
Proof.
  intros Hr n. subst n.
  destruct (flush_ready depth s Hr) as (s2 & Hf & _ & _ & _ & _ & Hl).
  rewrite !(read_after_flush depth _ s s2 Hf), (write_after_flush depth _ _ s s2 Hf).
  assert (Hpy : forall b, py_index (rf s2) b = index_of (length (rf s)) b)
    by (intros b; unfold py_index; rewrite Hl; reflexivity).
  split; [|split].
  - rewrite <- index_of_None, <- Hpy.
    destruct (py_index (rf s2) a) as [i|] eqn:Ei.
    + destruct (_read_in_range a s2 i Ei) as (old & _ & ->). cbn.
      split; discriminate.
    + unfold Demo._read. rewrite Ei. cbn. tauto.
  - rewrite <- index_of_None, <- Hpy.
    destruct (py_index (rf s2) a) as [i|] eqn:Ei.
    + rewrite (_write_in_range a v s2 i Ei). cbn. split; discriminate.
    + unfold Demo._write. cbn. rewrite Ei. cbn. tauto.
  - intros Ha. unfold Demo._read. rewrite !Hpy.
    rewrite (index_of_alias _ a Ha).
    destruct (index_of (length (rf s)) (a + Z.of_nat (length (rf s)))) as [i|];
      [|reflexivity].
    destruct (rf s2 !! i); reflexivity.
Qed.

Lemma immediate_access_bounds_witness :
  snd (Demo.read 0 1024 busy_state) = Err IndexError /\
  snd (Demo.read 0 (-1) busy_state) = snd (Demo.read 0 1023 busy_state).
Proof.
  assert (Hr : ready busy_state) by (vm_compute; reflexivity).
  destruct (immediate_access_bounds 0 busy_state 1024 0 Hr) as (H1 & _ & _).
  destruct (immediate_access_bounds 0 busy_state (-1) 0 Hr) as (_ & _ & H3).
  split.
  - apply H1. right. vm_compute. discriminate.
  - apply H3. vm_compute. split; [discriminate | reflexivity].
Defined.

(** X6. [write(a, v)] followed by [read(b)] returns [v] when [b] names
    the word [a] names, and otherwise the value [read(b)] would have
    returned without the write. *)
Theorem write_then_read (depth : nat) (s : DemoIface) (a b v : Z) (i j : nat) :
  ready s ->
  index_of (length (rf s)) a = Some i ->
  index_of (length (rf s)) b = Some j ->
  exists old s0 s',
    Demo.read depth b s = (s0, Ok old) /\
    bind (Demo.write depth a (VInt v)) (fun _ => Demo.read depth b) s =
      (s', Ok (if decide (i = j) then v else old)).
Proof.
  intros Hr Hi Hj.
  destruct (flush_ready depth s Hr) as (s2 & Hf & Ho & Ha & _ & _ & Hl).
  assert (Hpy : forall c, py_index (rf s2) c = index_of (length (rf s)) c)
    by (intros c; unfold py_index; rewrite Hl; reflexivity).
  rewrite (read_after_flush depth b s s2 Hf).
  destruct (_read_in_range b s2 j) as (old & Hold & Hrd); [rewrite Hpy; exact Hj|].
  rewrite Hrd.
  unfold bind. rewrite (write_after_flush depth a _ s s2 Hf).
  rewrite (_write_in_range a v s2 i) by (rewrite Hpy; exact Hi).
  set (s3 := set_rf (<[i := v]> (rf s2)) (print (Writing v a) s2)).
  assert (Hq : quiescent s3) by (split; assumption).
  rewrite (read_after_flush depth b s3 s3 (flush_quiescent depth s3 Hq)).
  assert (Hj3 : py_index (rf s3) b = Some j).
  { unfold py_index, s3. cbn. rewrite length_insert, Hl. exact Hj. }
  destruct (_read_in_range b s3 j Hj3) as (new & Hnew & ->).
  exists old. eexists. eexists. split; [reflexivity|]. f_equal. f_equal.
  unfold s3 in Hnew. cbn in Hnew.
  destruct (decide (i = j)) as [->|Hne].
  - rewrite list_lookup_insert_eq in Hnew; [congruence|].
    apply lookup_lt_Some in Hold. exact Hold.
  - rewrite list_lookup_insert_ne in Hnew by exact Hne. congruence.
Qed.

Lemma write_then_read_witness :
  exists old s0 s',
    Demo.read 0 5 busy_state = (s0, Ok old) /\
    bind (Demo.write 0 (-1019) (VInt 9)) (fun _ => Demo.read 0 5) busy_state
      = (s', Ok 9).
Proof.
  exact (write_then_read 0 busy_state (-1019) 5 9 5%nat 5%nat
           ltac:(vm_compute; reflexivity) eq_refl eq_refl).
Defined.

(** ** Deferred calls and dispatch *)

Lemma rmw_data addr m v s :
  rf (fst (Demo.rmw addr m v s)) = rf s /\
  stdout (fst (Demo.rmw addr m v s)) = stdout s /\
  futures s `prefix_of` futures (fst (Demo.rmw addr m v s)).
Proof.
  unfold Demo.rmw.
  destruct (rmw_addr s) as [cur|] eqn:Ea; [destruct (decide (addr = Some cur))|];
    destruct addr as [a|]; cbn; rewrite ?Ea; cbn;
    repeat split; try reflexivity; try (apply prefix_app_r; reflexivity);
    try congruence.
Qed.

(** X7. The deferred calls [writex], [readx] and [rmw] (with or without
    an address) make no bus access: in every state they return normally
    and leave the register file and the printed lines as they were, and
    every future that existed keeps its place and its state. *)
Theorem deferred_calls_make_no_access (s : DemoIface) (a m v : Z)
    (addr : option Z) (val : pyval) :
  (exists s', Demo.writex a val s = (s', Ok tt) /\
              rf s' = rf s /\ stdout s' = stdout s /\ futures s' = futures s) /\
  (exists s' df, Demo.readx a s = (s', Ok df) /\
                 rf s' = rf s /\ stdout s' = stdout s /\
                 futures s' = futures s ++ [None] /\ df = length (futures s)) /\
  (exists s', Demo.rmw addr m v s = (s', Ok tt) /\
              rf s' = rf s /\ stdout s' = stdout s /\
              futures s `prefix_of` futures s').
Proof.
  destruct (finalized_data s) as (Hrf & Hfu & _).
  assert (Hso : stdout (finalized s) = stdout s)
    by (unfold finalized; destruct (rmw_addr s); reflexivity).
  split; [|split].
  - unfold Demo.writex, bind. rewrite rmw_finalize. unfold Demo.append_oper.
    eexists. split; [reflexivity|]. cbn. auto.
  - unfold Demo.readx, bind. rewrite rmw_finalize.
    unfold Demo.new_future, Demo.append_oper, ret.
    eexists. eexists. split; [reflexivity|]. cbn. rewrite Hrf, Hso, Hfu. auto.
  - destruct (rmw_returns addr m v s) as [s' Hs'].
    destruct (rmw_data addr m v s) as (H1 & H2 & H3). rewrite Hs' in *.
    exists s'. cbn in *. auto.
Qed.

(** X8. A [dispatch()] that returns normally leaves the queue empty, so
    that a second one only prints the "empty dispatch" line; on an empty
    queue the first one does no more than that either. *)
Theorem dispatch_empties_queue (depth : nat) (s s' : DemoIface) :
  Demo.dispatch depth s = (s', Ok tt) ->
  opers s' = [] /\
  Demo.dispatch depth s' = (print EmptyDispatch s', Ok tt) /\
  (opers s = [] -> s' = print EmptyDispatch s).
Proof.
  rewrite !dispatch_unfold. unfold Demo.dispatch_body.
  destruct (opers s) as [|x xs] eqn:Eo.
  - intros [= <-]. cbn. rewrite Eo. auto.
  - unfold bind.
    destruct (Demo.run (nested_dispatch depth) (x :: xs) (print BeforeDispatch s))
      as [s1 [[]|e]]; [|discriminate].
    intros [= <-]. cbn. split; [reflexivity|]. split; [reflexivity|discriminate].
Qed.

Lemma dispatch_empties_queue_witness :
  exists s', Demo.dispatch 0 after_readx = (s', Ok tt) /\
             opers s' = [] /\
             Demo.dispatch 0 s' = (print EmptyDispatch s', Ok tt).
Proof.
  eexists. split; [vm_compute; reflexivity|].
  split; [reflexivity|].
  eapply (dispatch_empties_queue 0 after_readx). vm_compute. reflexivity.
Defined.

(** ** What a dispatch does to the data *)

Lemma load_in_range r a i old :
  py_index r a = Some i -> r !! i = Some old -> load r a = old.
Proof. intros Hi Ho. unfold load. rewrite Hi, Ho. reflexivity. Qed.

Lemma store_length r a v : length (store r a v) = length r.
Proof. unfold store. destruct (py_index r a); [apply length_insert | reflexivity]. Qed.

Lemma load_store_same r a v i :
  index_of (length r) a = Some i -> load (store r a v) a = v.
Proof.
  intros Hi. unfold load, store, py_index. rewrite Hi, length_insert, Hi.
  rewrite list_lookup_insert_eq; [reflexivity|]. apply (index_of_lt _ a). exact Hi.
Qed.

Lemma run_app nested xs ys s :
  Demo.run nested (xs ++ ys) s =
  bind (Demo.run nested xs) (fun _ => Demo.run nested ys) s.
Proof.
  revert s. induction xs as [|x xs IH]; intros s.
  - cbn. unfold bind, ret. reflexivity.
  - cbn [app Demo.run]. unfold bind in *.
    destruct (Demo.call nested x s) as [s1 [[]|e]]; [apply IH | reflexivity].
Qed.

Lemma effect_app xs : forall ys f r,
  effect (xs ++ ys) f r =
  effect ys (fst (effect xs f r)) (snd (effect xs f r)).
Proof.
  induction xs as [|x xs IH]; intros ys f r; [reflexivity|].
  destruct x as [a [v|l]|df a|[df|] a m n]; cbn; apply IH.
Qed.

Lemma effect_lengths xs : forall f r,
  length (fst (effect xs f r)) = length f /\
  length (snd (effect xs f r)) = length r.
Proof.
  induction xs as [|x xs IH]; intros f r; [split; reflexivity|].
  destruct x as [a [v|l]|df a|[df|] a m n]; cbn;
    destruct (IH f r) as [H1 H2];
    try (destruct (IH f (store r a v)) as [H3 H4]);
    try (destruct (IH (<[df := Some (load r a)]> f) r) as [H5 H6]);
    try (destruct (IH f (store r a (Demo.rmw_word (future_word f df) m n)))
           as [H7 H8]);
    rewrite ?store_length, ?length_insert in *; split; assumption.
Qed.

Section RunEffect.
Variable nested : M DemoIface unit.

Lemma call_effect x xs s :
  runnable (length (rf s)) (resolved (futures s)) (x :: xs) = true ->
  exists s',
    Demo.call nested x s = (s', Ok tt) /\
    effect (x :: xs) (futures s) (rf s) = effect xs (futures s') (rf s').
Proof.
  destruct x as [a [v|l]|df a|[df|] a m n]; cbn [runnable]; try discriminate.
  - destruct (index_of (length (rf s)) a) as [i|] eqn:Ei; [|discriminate].
    intros _. cbn. unfold Demo._write, store, py_index. cbn. rewrite Ei.
    eexists. split; reflexivity.
  - destruct (index_of (length (rf s)) a) as [i|] eqn:Ei; [|discriminate].
    intros _. cbn. unfold bind, Demo._read, load, py_index. rewrite Ei.
    destruct (lookup_lt_is_Some_2 (rf s) i (index_of_lt _ _ _ Ei)) as [v Hv].
    rewrite Hv. cbn. eexists. split; reflexivity.
  - destruct (resolved (futures s) !! df) as [[|]|] eqn:Ed; try discriminate.
    destruct (index_of (length (rf s)) a) as [i|] eqn:Ei; [|discriminate].
    intros _. apply resolved_lookup in Ed as [v Hv].
    cbn. unfold bind, Demo.DI_future_val, future_done, future_word. rewrite Hv.
    unfold Demo._write, store, py_index. cbn. rewrite Ei.
    eexists. split; reflexivity.
Qed.

Lemma run_effect xs : forall s,
  runnable (length (rf s)) (resolved (futures s)) xs = true ->
  exists s',
    Demo.run nested xs s = (s', Ok tt) /\ same_control s s' /\
    (futures s', rf s') = effect xs (futures s) (rf s).
Proof.
  induction xs as [|x xs IH]; intros s Hr.
  - exists s. cbn. auto using same_control_refl.
  - destruct (call_runnable nested x xs s Hr) as (s1 & Hc & Hs1 & Ha & _ & _ & Hr1).
    destruct (call_effect x xs s Hr) as (s1' & Hc' & He).
    rewrite Hc in Hc'. injection Hc' as <-.
    destruct (IH s1 Hr1) as (s2 & Hrun & Hs2 & He2).
    exists s2. cbn [Demo.run]. unfold bind. rewrite Hc.
    split; [exact Hrun|]. split; [eapply same_control_trans; eassumption|].
    congruence.
Qed.
End RunEffect.

Lemma dispatch_effect depth s :
  runnable (length (rf s)) (resolved (futures s)) (opers s) = true ->
  exists s',
    Demo.dispatch depth s = (s', Ok tt) /\
    opers s' = [] /\ rmw_df s' = rmw_df s /\ rmw_addr s' = rmw_addr s /\
    rmw_mask s' = rmw_mask s /\ rmw_nval s' = rmw_nval s /\
    (futures s', rf s') = effect (opers s) (futures s) (rf s).
Proof.
  intros Hr. rewrite dispatch_unfold. unfold Demo.dispatch_body.
  destruct (opers s) as [|x xs] eqn:Eo.
  - eexists. split; [reflexivity|]. cbn. auto 10.
  - destruct (run_effect (nested_dispatch depth) (x :: xs) (print BeforeDispatch s))
      as (s1 & Hrun & Hs1 & He); [exact Hr|].
    unfold bind. rewrite Hrun.
    eexists. split; [reflexivity|]. cbn.
    destruct Hs1 as (_ & Hdf & Haddr & Hmask & Hnval & _). cbn in *.
    auto 10.
Qed.

Lemma flush_effect depth s :
  ready s ->
  exists s2,
    flush depth s = (s2, Ok tt) /\ quiescent s2 /\
    rmw_mask s2 = rmw_mask s /\ rmw_nval s2 = rmw_nval s /\
    (futures s2, rf s2) =
      effect (opers s ++ pending_write s) (futures s) (rf s).
Proof.
  intros Hr. unfold flush, bind. rewrite rmw_finalize.
  unfold Demo.dispatch_if_opers.
  destruct (finalized_data s) as (Hrf & Hfu & Hp).
  assert (Hacc : rmw_mask (finalized s) = rmw_mask s /\
                 rmw_nval (finalized s) = rmw_nval s)
    by (unfold finalized; destruct (rmw_addr s); repeat split).
  destruct Hacc as (Hm & Hn).
  destruct (opers (finalized s)) as [|x xs] eqn:Eo.
  - exists (finalized s). rewrite finalized_opers in Eo. rewrite Eo. cbn.
    rewrite Hrf, Hfu.
    repeat split; auto using finalized_idle.
    rewrite finalized_opers. exact Eo.
  - destruct (dispatch_effect depth (finalized s))
      as (s2 & Hd & Ho & _ & Ha & Hm2 & Hn2 & He).
    { rewrite Hrf, Hfu, finalized_opers. exact Hr. }
    exists s2. rewrite Hd. rewrite finalized_idle in Ha.
    rewrite He, Hrf, Hfu, finalized_opers.
    repeat split; try assumption; congruence.
Qed.

Lemma futures_extend_snoc f : futures_extend f (f ++ [None]).
Proof.
  split; [rewrite length_app; lia|].
  intros d v Hd. rewrite lookup_app_l; [exact Hd|].
  apply lookup_lt_Some in Hd. exact Hd.
Qed.

Lemma futures_extend_insert f f' df x :
  futures_extend f f' ->
  futures_extend (<[df := Some x]> f) (<[df := Some x]> f').
Proof.
  intros [Hlen Hc]. split; [rewrite !length_insert; exact Hlen|].
  intros d v Hd. destruct (decide (df = d)) as [->|Hne].
  - assert (Hlt : (d < length f)%nat)
      by (apply lookup_lt_Some in Hd; rewrite length_insert in Hd; exact Hd).
    rewrite list_lookup_insert_eq in Hd by exact Hlt.
    rewrite list_lookup_insert_eq by lia. exact Hd.
  - rewrite list_lookup_insert_ne in Hd by exact Hne.
    rewrite list_lookup_insert_ne by exact Hne. apply Hc. exact Hd.
Qed.

(** Futures created later, or resolved meanwhile, do not change what a
    runnable queue writes. *)
Lemma effect_frame n xs : forall f f' r,
  futures_extend f f' ->
  runnable n (resolved f) xs = true ->
  snd (effect xs f' r) = snd (effect xs f r).
Proof.
  induction xs as [|x xs IH]; intros f f' r Hx Hr; [reflexivity|].
  destruct x as [a [v|l]|df a|[df|] a m k]; cbn in *; try discriminate.
  - destruct (index_of n a); [|discriminate]. apply IH; assumption.
  - destruct (index_of n a); [|discriminate].
    apply IH; [apply futures_extend_insert; exact Hx|].
    unfold resolved in *. rewrite list_fmap_insert. exact Hr.
  - destruct (resolved f !! df) as [[|]|] eqn:Ed; try discriminate.
    destruct (index_of n a); [|discriminate].
    apply resolved_lookup in Ed as [v Hv].
    unfold future_word. rewrite Hv, (proj2 Hx _ _ Hv).
    apply IH; assumption.
Qed.

Lemma _read_load a s i :
  py_index (rf s) a = Some i ->
  Demo._read a s = (print (Reading a (load (rf s) a)) s, Ok (load (rf s) a)).
Proof.
  intros Hi. destruct (_read_in_range a s i Hi) as (old & Ho & ->).
  rewrite (load_in_range _ _ _ _ Hi Ho). reflexivity.
Qed.

(** What [read(a)] returns from a ready state: the word at [a] once the
    queue and the pending RMW have had their effect. *)
Lemma read_ready depth s a i :
  ready s -> index_of (length (rf s)) a = Some i ->
  exists s',
    Demo.read depth a s =
    (s', Ok (load (snd (effect (opers s ++ pending_write s) (futures s) (rf s))) a)).
Proof.
  intros Hr Hi.
  destruct (flush_effect depth s Hr) as (s2 & Hf & _ & _ & _ & He).
  rewrite (read_after_flush depth a s s2 Hf).
  assert (Hrf : rf s2 = snd (effect (opers s ++ pending_write s) (futures s) (rf s)))
    by (rewrite <- He; reflexivity).
  rewrite (_read_load a s2 i).
  - rewrite Hrf. eexists. reflexivity.
  - unfold py_index. rewrite Hrf, (proj2 (effect_lengths _ _ _)). exact Hi.
Qed.

Lemma writex_read_value depth s a v :
  ready s -> is_Some (index_of (length (rf s)) a) ->
  exists s',
    bind (Demo.writex a (VInt v)) (fun _ => Demo.read depth a) s = (s', Ok v).
Proof.
  intros Hr [i Hi].
  destruct (ready_writex s a v Hr (ex_intro _ i Hi)) as (s1 & Hw & Hr1 & Hl1).
  unfold bind. rewrite Hw.
  assert (Hi1 : index_of (length (rf s1)) a = Some i) by (rewrite Hl1; exact Hi).
  destruct (read_ready depth s1 a i Hr1 Hi1) as (s' & ->).
  exists s'. f_equal. f_equal.
  assert (Hq : exists q, opers s1 ++ pending_write s1 = q ++ [OpWrite a (VInt v)]).
  { revert Hw. unfold Demo.writex, bind. rewrite rmw_finalize.
    unfold Demo.append_oper. intros [= <-]. unfold pending_write. cbn.
    rewrite finalized_idle, app_nil_r. eauto. }
  destruct Hq as [q ->]. rewrite effect_app. cbn.
  apply (load_store_same _ a v i).
  rewrite (proj2 (effect_lengths _ _ _)), Hl1. exact Hi.
Qed.

(** X9. A deferred write is seen by the next immediate read of the same
    address: [writex(a, v)] then [read(a)] returns [v]. *)
Theorem writex_then_read (depth : nat) (s : DemoIface) (a v : Z) :
  ready s -> is_Some (index_of (length (rf s)) a) ->
  exists s',
    bind (Demo.writex a (VInt v)) (fun _ => Demo.read depth a) s = (s', Ok v).
Proof. apply writex_read_value. Qed.

Lemma writex_then_read_witness :
  exists s', bind (Demo.writex 7 (VInt 42)) (fun _ => Demo.read 0 7) busy_state
             = (s', Ok 42).
Proof.
  apply (writex_then_read 0 busy_state 7 42).
  - vm_compute. reflexivity.
  - exists 7%nat. reflexivity.
Defined.

Lemma readx_val_read depth s a :
  ready s -> is_Some (index_of (length (rf s)) a) ->
  exists v s1 s2,
    bind (Demo.readx a) (fun df => Demo.val depth df) s = (s1, Ok v) /\
    Demo.read depth a s = (s2, Ok v) /\
    rf s1 = rf s2.
Proof.
  intros Hr [i Hi].
  set (q := opers s ++ pending_write s).
  assert (Hrq : runnable (length (rf s)) (resolved (futures s)) q = true) by exact Hr.
  (* the immediate read *)
  destruct (flush_effect depth s Hr) as (s2 & Hf & _ & _ & _ & He).
  fold q in He.
  assert (Hrf2 : rf s2 = snd (effect q (futures s) (rf s))) by (rewrite <- He; reflexivity).
  assert (Hi2 : py_index (rf s2) a = Some i).
  { unfold py_index. rewrite Hrf2, (proj2 (effect_lengths _ _ _)). exact Hi. }
  (* the deferred one *)
  assert (Hx : Demo.readx a s =
               (set_opers (opers (finalized s) ++ [OpReadSet (length (futures s)) a])
                  (set_futures (futures s ++ [None]) (finalized s)),
                Ok (length (futures s)))).
  { unfold Demo.readx, bind. rewrite rmw_finalize.
    unfold Demo.new_future, Demo.append_oper, ret.
    destruct (finalized_data s) as (_ & -> & _). reflexivity. }
  set (t := set_opers (opers (finalized s) ++ [OpReadSet (length (futures s)) a])
              (set_futures (futures s ++ [None]) (finalized s))) in *.
  assert (Hto : opers t = q ++ [OpReadSet (length (futures s)) a])
    by (unfold t; cbn; rewrite finalized_opers; reflexivity).
  assert (Htf : futures t = futures s ++ [None]) by reflexivity.
  assert (Htr : rf t = rf s)
    by (unfold t; cbn; apply (proj1 (finalized_data s))).
  assert (Hrt : runnable (length (rf t)) (resolved (futures t)) (opers t) = true).
  { rewrite Hto, Htf, Htr, resolved_snoc, runnable_app.
    rewrite (runnable_mono _ _ _ _ (covers_snoc _) Hrq). cbn. rewrite Hi. reflexivity. }
  destruct (dispatch_effect depth t Hrt) as (s1 & Hd & _ & _ & _ & _ & _ & Het).
  rewrite Hto, Htf, Htr, effect_app in Het. cbn in Het.
  assert (Hfr : snd (effect q (futures s ++ [None]) (rf s)) =
                snd (effect q (futures s) (rf s)))
    by (apply (effect_frame (length (rf s)));
        [apply futures_extend_snoc | exact Hrq]).
  injection Het as Hf1 Hr1.
  exists (load (rf s2) a), s1, (print (Reading a (load (rf s2) a)) s2).
  split; [|split].
  - unfold bind. rewrite Hx. unfold Demo.val, Demo.DI_future_val.
    assert (Hnone : future_done t (length (futures s)) = None).
    { unfold future_done. rewrite Htf.
      rewrite lookup_app_r by lia. rewrite Nat.sub_diag. reflexivity. }
    rewrite Hnone. unfold bind. rewrite Hd.
    unfold future_done. rewrite Hf1.
    rewrite list_lookup_insert_eq.
    + rewrite Hfr, <- Hrf2. reflexivity.
    + rewrite (proj1 (effect_lengths _ _ _)), length_app. cbn. lia.
  - rewrite (read_after_flush depth a s s2 Hf). apply (_read_load a s2 i Hi2).
  - cbn. rewrite Hr1, Hfr, Hrf2. reflexivity.
Qed.

(** X10. The deferred read agrees with the immediate one: [readx(a)]
    followed by [.val] on the future it returned gives the value
    [read(a)] gives in the same state, and both leave the same register
    file. *)
Theorem readx_val_agrees_with_read (depth : nat) (s : DemoIface) (a : Z) :
  ready s -> is_Some (index_of (length (rf s)) a) ->
  exists v s1 s2,
    bind (Demo.readx a) (fun df => Demo.val depth df) s = (s1, Ok v) /\
    Demo.read depth a s = (s2, Ok v) /\
    rf s1 = rf s2.
Proof. apply readx_val_read. Qed.

Lemma readx_val_agrees_with_read_witness :
  exists v s1 s2,
    bind (Demo.readx 3) (fun df => Demo.val 0 df) busy_state = (s1, Ok v) /\
    Demo.read 0 3 busy_state = (s2, Ok v) /\
    rf s1 = rf s2.
Proof.
  apply (readx_val_agrees_with_read 0 busy_state 3).
  - vm_compute. reflexivity.
  - exists 3%nat. reflexivity.
Defined.

(** ** Read-modify-write, as a later read sees it *)

(** A state [t] that has, behind the queue of [s], the baseline read of
    an aggregated RMW to [a] and its write with mask [M] and value [N]:
    [read(a)] then returns the RMW word of what [read(a)] returns in
    [s]. *)
Lemma read_after_aggregated depth s t a i M N :
  ready s -> rmw_addr s = None ->
  index_of (length (rf s)) a = Some i ->
  rf t = rf s -> futures t = futures s ++ [None] ->
  opers t ++ pending_write t =
    opers s ++ [OpReadSet (length (futures s)) a;
                OpRmw (Some (length (futures s))) a M N] ->
  exists old s1 s2,
    Demo.read depth a s = (s1, Ok old) /\
    Demo.read depth a t = (s2, Ok (Demo.rmw_word old M N)) /\
    bus_accesses (stdout s2) =
      bus_accesses (stdout t) ++ map oper_access (opers s)
                              ++ [Load a; Store a; Load a].
Proof.
  intros Hr Hidle Hi Hrf Hfu Hq.
  assert (Hps : pending_write s = []) by (unfold pending_write; rewrite Hidle; reflexivity).
  assert (Hrq : runnable (length (rf s)) (resolved (futures s)) (opers s) = true).
  { unfold ready in Hr. rewrite Hps, app_nil_r in Hr. exact Hr. }
  assert (Hrt : ready t).
  { unfold ready. rewrite Hq, Hrf, Hfu, resolved_snoc, <- (resolved_length (futures s)).
    apply runnable_read_then_rmw; [eauto | exact Hrq]. }
  destruct (read_ready depth s a i Hr Hi) as (s1 & Hs1).
  rewrite Hps, app_nil_r in Hs1.
  destruct (flush_ready depth t Hrt) as (t2 & Hft & _ & _ & Hacc & _ & Hlt).
  destruct (flush_effect depth t Hrt) as (t2' & Hft' & _ & _ & _ & Het).
  rewrite Hft in Hft'. injection Hft' as <-.
  rewrite Hq, Hrf, Hfu, effect_app in Het. cbn in Het.
  injection Het as _ Hrt2.
  assert (Hfr : snd (effect (opers s) (futures s ++ [None]) (rf s)) =
                snd (effect (opers s) (futures s) (rf s)))
    by (apply (effect_frame (length (rf s)));
        [apply futures_extend_snoc | exact Hrq]).
  set (r1 := snd (effect (opers s) (futures s) (rf s))) in *.
  assert (Hl1 : length r1 = length (rf s)) by apply (proj2 (effect_lengths _ _ _)).
  assert (Hfw : future_word
                  (<[length (futures s) := Some (load r1 a)]>
                     (fst (effect (opers s) (futures s ++ [None]) (rf s))))
                  (length (futures s)) = load r1 a).
  { unfold future_word. rewrite list_lookup_insert_eq; [reflexivity|].
    rewrite (proj1 (effect_lengths _ _ _)), length_app. cbn. lia. }
  rewrite Hfr, Hfw in Hrt2.
  assert (Hi2 : py_index (rf t2) a = Some i).
  { unfold py_index. rewrite Hrt2, store_length, Hl1. exact Hi. }
  exists (load r1 a), s1, (print (Reading a (load (rf t2) a)) t2).
  split; [exact Hs1|]. split.
  - rewrite (read_after_flush depth a t t2 Hft), (_read_load a t2 i Hi2).
    f_equal. f_equal. rewrite Hrt2. apply (load_store_same _ a _ i).
    rewrite Hl1. exact Hi.
  - cbn. rewrite bus_accesses_snoc, Hacc, Hq, map_app, <- !app_assoc. reflexivity.
Qed.

Lemma rmw_word_one b m v :
  Demo.rmw_word b (Z.lor 0 m) (Z.lor (Z.lxor (Z.lor 0 m) m) (Z.land v m)) =
  Z.lor (Z.land b (Z.lnot m)) (Z.land v m).
Proof.
  unfold Demo.rmw_word. apply Z.bits_inj'. intros i Hi.
  repeat first [ rewrite Z.lor_spec | rewrite Z.lxor_spec | rewrite Z.land_spec
               | rewrite Z.lnot_spec by lia | rewrite Z.bits_0 ].
  destruct (Z.testbit b i), (Z.testbit m i), (Z.testbit v i); reflexivity.
Qed.

(** X11. On an interface whose RMW attributes are as [__init__] left
    them, [reg.rmw(mask, value, now)] does what the module docstring
    says, [X := (X and ~mask) | (value and mask)]: the next [read] of
    the register returns that word, [X] being what [read] would have
    returned without the RMW, and the bus sees the queued operations and
    then one read and one write of the register before the final read. *)
Theorem register_rmw_then_read (depth : nat) (r : Register) (m v : Z)
    (now : bool) (s : DemoIface) :
  let I := DemoIface_Iface depth in
  rmw_clear s -> ready s ->
  is_Some (index_of (length (rf s)) (reg_base r)) ->
  exists old s1 s2,
    Demo.read depth (reg_base r) s = (s1, Ok old) /\
    bind (Register_rmw r m v now) (fun _ => Demo.read depth (reg_base r)) s =
      (s2, Ok (Z.lor (Z.land old (Z.lnot m)) (Z.land v m))) /\
    bus_accesses (stdout s2) =
      bus_accesses (stdout s) ++ map oper_access (opers s)
        ++ [Load (reg_base r); Store (reg_base r); Load (reg_base r)].
Proof.
  intros I (Hidle & Hm & Hn) Hr [i Hi].
  set (a := reg_base r).
  set (t1 := fst (Demo.rmw (Some a) m v s)).
  assert (Ht1 : Demo.rmw (Some a) m v s = (t1, Ok tt)).
  { unfold t1. rewrite (rmw_idle s a m v Hidle). reflexivity. }
  assert (Hrmw : exists t, Register_rmw r m v now s = (t, Ok tt) /\
                   rf t = rf s /\ futures t = futures s ++ [None] /\
                   stdout t = stdout s /\
                   opers t ++ pending_write t =
                   opers s ++ [OpReadSet (length (futures s)) a;
                               OpRmw (Some (length (futures s))) a (Z.lor 0 m)
                                 (Z.lor (Z.lxor (Z.lor 0 m) m) (Z.land v m))]).
  { unfold Register_rmw, bind. cbn [iface_rmw I DemoIface_Iface]. fold a.
    rewrite Ht1. unfold t1. rewrite (rmw_idle s a m v Hidle), Hm, Hn. cbn [fst].
    destruct now.
    - cbn [iface_rmw]. rewrite rmw_finalize. eexists. split; [reflexivity|].
      unfold finalized, pending_write. cbn.
      repeat split. rewrite <- !app_assoc. reflexivity.
    - eexists. split; [reflexivity|].
      unfold pending_write. cbn.
      repeat split. rewrite <- !app_assoc. reflexivity. }
  destruct Hrmw as (t & Hreg & Hrf & Hfu & Hso & Hq).
  destruct (read_after_aggregated depth s t a i _ _ Hr Hidle Hi Hrf Hfu Hq)
    as (old & s1 & s2 & H1 & H2 & H3).
  exists old, s1, s2. split; [exact H1|]. split.
  - unfold bind. rewrite Hreg, H2, rmw_word_one. reflexivity.
  - rewrite H3, Hso. reflexivity.
Qed.

Lemma register_rmw_then_read_witness :
  let I := DemoIface_Iface 0 in
  exists old s1 s2,
    Demo.read 0 13 (DemoIface_init rf0) = (s1, Ok old) /\
    bind (Register_rmw status_r1 0xF0 0xAB true) (fun _ => Demo.read 0 13)
         (DemoIface_init rf0) =
      (s2, Ok (Z.lor (Z.land old (Z.lnot 0xF0)) (Z.land 0xAB 0xF0))) /\
    bus_accesses (stdout s2) = [Load 13; Store 13; Load 13].
Proof.
  apply (register_rmw_then_read 0 status_r1 0xF0 0xAB true (DemoIface_init rf0)).
  - repeat split.
  - reflexivity.
  - exists 13%nat. reflexivity.
Defined.

(** ** Aggregated bitfield writes *)

Lemma decode_of_field_bits bf is_signed w v :
  BitField_wf bf is_signed ->
  vmin bf <= v <= vmax bf ->
  (forall j, lsb bf <= j <= msb bf ->
     Z.testbit w j = Z.testbit (Z.shiftl (wrap_negative bf v) (lsb bf)) j) ->
  decode bf w = v.
Proof.
  intros Hwf Hv Hbits.
  rewrite <- (decode_insert bf is_signed Hwf 0 v Hv).
  apply (decode_ext bf is_signed Hwf). intros j Hj.
  pose proof (wf_lsb _ _ Hwf) as Hl.
  rewrite (Hbits j Hj). unfold insert_field.
  rewrite Z.lor_spec, Z.lxor_spec, Z.lor_spec, Z.land_spec, Z.bits_0,
    (mask_testbit bf is_signed Hwf) by lia.
  destruct (Z.leb_spec (lsb bf) j), (Z.leb_spec j (msb bf)); try lia.
  cbn. rewrite andb_true_r. reflexivity.
Qed.

(** The bits of the word two merged requests write. *)
Lemma merged_testbit b m1 U1 m2 U2 j :
  0 <= j ->
  Z.testbit
    (Demo.rmw_word b (Z.lor (Z.lor 0 m1) m2)
       (Z.lor (Z.lxor (Z.lor (Z.lor (Z.lxor (Z.lor 0 m1) m1) (Z.land U1 m1)) m2) m2)
              (Z.land U2 m2))) j =
  if Z.testbit m2 j then Z.testbit U2 j
  else if Z.testbit m1 j then Z.testbit U1 j else Z.testbit b j.
Proof.
  intros Hj. unfold Demo.rmw_word.
  repeat first [ rewrite Z.lor_spec | rewrite Z.lxor_spec | rewrite Z.land_spec
               | rewrite Z.bits_0 ].
  destruct (Z.testbit b j), (Z.testbit m1 j), (Z.testbit m2 j),
           (Z.testbit U1 j), (Z.testbit U2 j); reflexivity.
Qed.

(** X12. Two [writex] calls to bitfields of one register that share no
    position, on an interface whose RMW attributes are as [__init__]
    left them (the first with [now=False]), are carried out as one read
    and one write of the register: a following [read] returns a word in
    which both fields decode to the values written and every bit outside
    the two fields is what [read] would have returned without them. *)
Theorem bitfield_writex_pair (depth : nat) (base : Z)
    (m1 l1 m2 l2 : Z) (sg1 sg2 : bool) (bf1 bf2 : BitField) (v1 v2 : Z)
    (now : bool) (s : DemoIface) :
  let I := DemoIface_Iface depth in
  BitField_init m1 l1 sg1 = Ok bf1 ->
  BitField_init m2 l2 sg2 = Ok bf2 ->
  disjoint_fields bf1 bf2 ->
  vmin bf1 <= v1 <= vmax bf1 ->
  vmin bf2 <= v2 <= vmax bf2 ->
  rmw_clear s -> ready s ->
  is_Some (index_of (length (rf s)) base) ->
  exists old w s1 s2,
    Demo.read depth base s = (s1, Ok old) /\
    bind (BitFieldAccess_writex (MkBitFieldAccess base bf1) v1 false)
         (fun _ => bind (BitFieldAccess_writex (MkBitFieldAccess base bf2) v2 now)
                        (fun _ => Demo.read depth base)) s = (s2, Ok w) /\
    decode bf1 w = v1 /\ decode bf2 w = v2 /\
    (forall j, 0 <= j ->
       (j < lsb bf1 \/ msb bf1 < j) -> (j < lsb bf2 \/ msb bf2 < j) ->
       Z.testbit w j = Z.testbit old j) /\
    bus_accesses (stdout s2) =
      bus_accesses (stdout s) ++ map oper_access (opers s)
        ++ [Load base; Store base; Load base].
Proof.
  intros I Hb1 Hb2 Hdis Hv1 Hv2 (Hidle & Hm & Hn) Hr [i Hi].
  apply BitField_init_wf in Hb1 as (Hwf1 & _), Hb2 as (Hwf2 & _).
  set (U1 := Z.shiftl (wrap_negative bf1 v1) (lsb bf1)).
  set (U2 := Z.shiftl (wrap_negative bf2 v2) (lsb bf2)).
  set (M := Z.lor (Z.lor 0 (mask bf1)) (mask bf2)).
  set (N := Z.lor (Z.lxor (Z.lor (Z.lor (Z.lxor (Z.lor 0 (mask bf1)) (mask bf1))
                                        (Z.land U1 (mask bf1))) (mask bf2)) (mask bf2))
                  (Z.land U2 (mask bf2))).
  assert (Hpair : exists t,
            bind (BitFieldAccess_writex (MkBitFieldAccess base bf1) v1 false)
                 (fun _ => BitFieldAccess_writex (MkBitFieldAccess base bf2) v2 now) s
              = (t, Ok tt) /\
            rf t = rf s /\ futures t = futures s ++ [None] /\ stdout t = stdout s /\
            opers t ++ pending_write t =
              opers s ++ [OpReadSet (length (futures s)) base;
                          OpRmw (Some (length (futures s))) base M N]).
  { unfold BitFieldAccess_writex. cbn [x__bf bfa_base].
    rewrite (proj2 (out_of_range_false bf1 v1) Hv1),
            (proj2 (out_of_range_false bf2 v2) Hv2).
    cbn [iface_rmw I DemoIface_Iface]. unfold bind, ret.
    rewrite (rmw_idle s base _ _ Hidle), Hm, Hn.
    rewrite rmw_same by reflexivity. cbn [rmw_mask rmw_nval set_rmw_acc].
    fold U1 U2. fold M. fold N.
    destruct now.
    - rewrite rmw_finalize. eexists. split; [reflexivity|].
      unfold finalized, pending_write. cbn.
      repeat split. rewrite <- !app_assoc. reflexivity.
    - eexists. split; [reflexivity|].
      unfold pending_write. cbn.
      repeat split. rewrite <- !app_assoc. reflexivity. }
  destruct Hpair as (t & Hprog & Hrf & Hfu & Hso & Hq).
  destruct (read_after_aggregated depth s t base i M N Hr Hidle Hi Hrf Hfu Hq)
    as (old & s1 & s2 & H1 & H2 & H3).
  exists old, (Demo.rmw_word old M N), s1, s2.
  split; [exact H1|]. split.
  { revert Hprog. unfold bind.
    destruct (BitFieldAccess_writex (MkBitFieldAccess base bf1) v1 false s)
      as [s' [[]|e]]; [|discriminate].
    intros ->. exact H2. }
  assert (Hbit : forall j, 0 <= j ->
            Z.testbit (Demo.rmw_word old M N) j =
            if (lsb bf2 <=? j) && (j <=? msb bf2) then Z.testbit U2 j
            else if (lsb bf1 <=? j) && (j <=? msb bf1) then Z.testbit U1 j
                 else Z.testbit old j).
  { intros j Hj. unfold M, N. rewrite merged_testbit by exact Hj.
    rewrite (mask_testbit bf1 sg1 Hwf1 j Hj), (mask_testbit bf2 sg2 Hwf2 j Hj).
    reflexivity. }
  pose proof (wf_lsb _ _ Hwf1) as Hl1. pose proof (wf_lsb _ _ Hwf2) as Hl2.
  unfold disjoint_fields in Hdis.
  split; [|split; [|split]].
  - apply (decode_of_field_bits bf1 sg1 _ v1 Hwf1 Hv1). intros j Hj.
    rewrite Hbit by lia.
    destruct (Z.leb_spec (lsb bf2) j), (Z.leb_spec j (msb bf2)),
             (Z.leb_spec (lsb bf1) j), (Z.leb_spec j (msb bf1));
      cbn; try lia; reflexivity.
  - apply (decode_of_field_bits bf2 sg2 _ v2 Hwf2 Hv2). intros j Hj.
    rewrite Hbit by lia.
    destruct (Z.leb_spec (lsb bf2) j), (Z.leb_spec j (msb bf2));
      cbn; try lia; reflexivity.
  - intros j Hj Ho1 Ho2. rewrite Hbit by exact Hj.
    destruct (Z.leb_spec (lsb bf2) j), (Z.leb_spec j (msb bf2)),
             (Z.leb_spec (lsb bf1) j), (Z.leb_spec j (msb bf1));
      cbn; try lia; reflexivity.
  - rewrite H3, Hso. reflexivity.
Qed.

Lemma bitfield_writex_pair_witness :
  let I := DemoIface_Iface 0 in
  exists old w s1 s2,
    Demo.read 0 13 (DemoIface_init rf0) = (s1, Ok old) /\
    bind (BitFieldAccess_writex (MkBitFieldAccess 13 field_u_9_4) 11 false)
         (fun _ => bind (BitFieldAccess_writex
                           (MkBitFieldAccess 13 (MkBitField 1 3 0 0 7 14)) 5 true)
                        (fun _ => Demo.read 0 13)) (DemoIface_init rf0) = (s2, Ok w) /\
    decode field_u_9_4 w = 11 /\ decode (MkBitField 1 3 0 0 7 14) w = 5.
Proof.
  destruct (bitfield_writex_pair 0 13 9 4 3 1 false false
              field_u_9_4 (MkBitField 1 3 0 0 7 14) 11 5 true (DemoIface_init rf0)
              eq_refl eq_refl ltac:(right; cbn; lia)
              ltac:(cbn; lia) ltac:(cbn; lia)
              ltac:(repeat split) eq_refl
              ltac:(exists 13%nat; reflexivity))
    as (old & w & s1 & s2 & H1 & H2 & H3 & H4 & _).
  exists old, w, s1, s2. auto.
Defined.

(** ** Immediate bitfield access *)

Lemma BitFieldAccess_read_ready depth (a : BitFieldAccess) s s2 i old :
  flush depth s = (s2, Ok tt) ->
  py_index (rf s2) (bfa_base a) = Some i -> rf s2 !! i = Some old ->
  BitFieldAccess_read (H := DemoIface_Iface depth) a s =
  (print (Reading (bfa_base a) old) s2, Ok (decode (x__bf a) old)).
Proof.
  intros Hf Hi Ho. unfold BitFieldAccess_read, bind.
  cbn [iface_read DemoIface_Iface].
  rewrite (read_after_flush depth _ s s2 Hf). unfold Demo._read.
  rewrite Hi, Ho. reflexivity.
Qed.

Lemma BitFieldAccess_write_ready depth (a : BitFieldAccess) v s s2 i old :
  vmin (x__bf a) <= v <= vmax (x__bf a) ->
  flush depth s = (s2, Ok tt) -> quiescent s2 ->
  py_index (rf s2) (bfa_base a) = Some i -> rf s2 !! i = Some old ->
  BitFieldAccess_write (H := DemoIface_Iface depth) a v s =
  (set_rf (<[i := insert_field (x__bf a) old (wrap_negative (x__bf a) v)]> (rf s2))
     (print (Writing (insert_field (x__bf a) old (wrap_negative (x__bf a) v))
                     (bfa_base a))
        (print (Reading (bfa_base a) old) s2)), Ok tt).
Proof.
  intros Hv Hf [Hq1 Hq2] Hi Ho. unfold BitFieldAccess_write.
  rewrite (proj2 (out_of_range_false _ _) Hv). unfold bind.
  cbn [iface_read iface_write DemoIface_Iface].
  rewrite (read_after_flush depth _ s s2 Hf). unfold Demo._read.
  rewrite Hi, Ho.
  rewrite write_quiescent by assumption.
  unfold Demo._write. cbn [rf print]. rewrite Hi. reflexivity.
Qed.

(** X13. The immediate bitfield [write] followed by [read] through the
    same view returns the value written; [read] through a view of
    another field of that register, sharing no position with the first,
    returns what it returned before the write. *)
Theorem bitfield_write_then_read (depth : nat) (base : Z)
    (m l m' l' : Z) (sg sg' : bool) (bf bf' : BitField) (v : Z) (s : DemoIface) :
  let I := DemoIface_Iface depth in
  BitField_init m l sg = Ok bf ->
  BitField_init m' l' sg' = Ok bf' ->
  disjoint_fields bf bf' ->
  vmin bf <= v <= vmax bf ->
  ready s -> is_Some (index_of (length (rf s)) base) ->
  exists before s0 s1 s2,
    BitFieldAccess_read (MkBitFieldAccess base bf') s = (s0, Ok before) /\
    bind (BitFieldAccess_write (MkBitFieldAccess base bf) v)
         (fun _ => BitFieldAccess_read (MkBitFieldAccess base bf)) s = (s1, Ok v) /\
    bind (BitFieldAccess_write (MkBitFieldAccess base bf) v)
         (fun _ => BitFieldAccess_read (MkBitFieldAccess base bf')) s =
      (s2, Ok before).
Proof.
  intros I Hb Hb' Hdis Hv Hr [i Hi]. subst I.
  apply BitField_init_wf in Hb as (Hwf & _), Hb' as (Hwf' & _).
  destruct (flush_effect depth s Hr) as (s2 & Hf & Hq & _ & _ & He).
  assert (Hl : length (rf s2) = length (rf s)).
  { replace (rf s2) with (snd (effect (opers s ++ pending_write s) (futures s) (rf s)))
      by (rewrite <- He; reflexivity).
    apply (proj2 (effect_lengths _ _ _)). }
  assert (Hi2 : py_index (rf s2) base = Some i)
    by (unfold py_index; rewrite Hl; exact Hi).
  destruct (_read_in_range base s2 i Hi2) as (old & Ho & _).
  set (w := insert_field bf old (wrap_negative bf v)).
  set (s3 := set_rf (<[i := w]> (rf s2))
               (print (Writing w base) (print (Reading base old) s2))).
  assert (Hw : BitFieldAccess_write (H := DemoIface_Iface depth)
                 (MkBitFieldAccess base bf) v s = (s3, Ok tt))
    by exact (BitFieldAccess_write_ready depth (MkBitFieldAccess base bf) v s s2 i old
                Hv Hf Hq Hi2 Ho).
  assert (Hq3 : quiescent s3) by (destruct Hq; split; assumption).
  assert (Hi3 : py_index (rf s3) base = Some i).
  { unfold py_index, s3. cbn. rewrite length_insert. exact Hi2. }
  assert (Ho3 : rf s3 !! i = Some w).
  { unfold s3. cbn. apply list_lookup_insert_eq.
    apply lookup_lt_Some in Ho. exact Ho. }
  exists (decode bf' old). do 3 eexists. split; [|split].
  - exact (BitFieldAccess_read_ready depth (MkBitFieldAccess base bf') s s2 i old
             Hf Hi2 Ho).
  - unfold bind. rewrite Hw. cbn beta iota.
    rewrite (BitFieldAccess_read_ready depth (MkBitFieldAccess base bf) s3 s3 i w
               (flush_quiescent depth s3 Hq3) Hi3 Ho3).
    cbn [x__bf]. unfold w. rewrite (decode_insert bf sg Hwf old v Hv). reflexivity.
  - unfold bind. rewrite Hw. cbn beta iota.
    rewrite (BitFieldAccess_read_ready depth (MkBitFieldAccess base bf') s3 s3 i w
               (flush_quiescent depth s3 Hq3) Hi3 Ho3).
    cbn [x__bf]. f_equal. f_equal.
    apply (decode_ext bf' sg' Hwf'). intros j Hj.
    pose proof (wf_lsb _ _ Hwf'). unfold w.
    apply (insert_field_outside bf sg Hwf); [lia|].
    unfold disjoint_fields in Hdis. lia.
Qed.

Lemma bitfield_write_then_read_witness :
  let I := DemoIface_Iface 0 in
  exists before s0 s1 s2,
    BitFieldAccess_read (MkBitFieldAccess 13 field_u_9_4) busy_state = (s0, Ok before) /\
    bind (BitFieldAccess_write (MkBitFieldAccess 13 (MkBitField 1 3 0 0 7 14)) 5)
         (fun _ => BitFieldAccess_read (MkBitFieldAccess 13 (MkBitField 1 3 0 0 7 14)))
         busy_state = (s1, Ok 5) /\
    bind (BitFieldAccess_write (MkBitFieldAccess 13 (MkBitField 1 3 0 0 7 14)) 5)
         (fun _ => BitFieldAccess_read (MkBitFieldAccess 13 field_u_9_4))
         busy_state = (s2, Ok before).
Proof.
  apply (bitfield_write_then_read 0 13 3 1 9 4 false false
           (MkBitField 1 3 0 0 7 14) field_u_9_4 5 busy_state).
  - reflexivity.
  - reflexivity.
  - left. cbn. lia.
  - cbn. lia.
  - vm_compute. reflexivity.
  - exists 13%nat. reflexivity.
Defined.

(** ** Registers of either class *)

(** X14. [StatusRegister] overrides [write] only.  [write] on a status
    register raises and leaves the state alone, but [writex] on it queues
    the write like on any register: a following [read] of the register
    returns the value. *)
Theorem status_register_writex_not_guarded (depth : nat) (r : Register) (v : Z)
    (s : DemoIface) :
  let I := DemoIface_Iface depth in
  reg_class r = StatusRegister ->
  ready s -> is_Some (index_of (length (rf s)) (reg_base r)) ->
  Register_write r (VInt v) s = (s, Err ReadOnly) /\
  exists s', bind (Register_writex r (VInt v)) (fun _ => Register_read r) s
             = (s', Ok v).
Proof.
  intros I Hc Hr Hi. split.
  - unfold Register_write. rewrite Hc. reflexivity.
  - exact (writex_read_value depth s (reg_base r) v Hr Hi).
Qed.

Lemma status_register_writex_not_guarded_witness :
  let I := DemoIface_Iface 0 in
  Register_write status_r1 (VInt 5) busy_state = (busy_state, Err ReadOnly) /\
  exists s', bind (Register_writex status_r1 (VInt 5))
                  (fun _ => Register_read status_r1) busy_state = (s', Ok 5).
Proof.
  apply (status_register_writex_not_guarded 0 status_r1 5 busy_state).
  - reflexivity.
  - vm_compute. reflexivity.
  - exists 13%nat. reflexivity.
Defined.

(** ** Resolving names and indices to addresses *)

(** X15. [block.<name>] raises KeyError for a name that is not in the
    field table; for a single item it builds the accessor at
    [base + offset]; for a vector, [block.<name>[key]] with
    [key < nitems] builds the element at
    [base + offset + key * x__size]. *)
Theorem Block_field_address (cls : BlockDef) (base : Z) (name : string) :
  (dict_get (x__fields cls) name = None ->
   Block_getattr cls base name = Err KeyError) /\
  (forall off c args,
     dict_get (x__fields cls) name = Some (Single off (MkMArgs c args)) ->
     constructible c args ->
     exists acc, Block_getattr cls base name = Ok acc /\
                 acc_base acc = base + off /\ acc_instance_of acc c) /\
  (forall off n c args key,
     dict_get (x__fields cls) name = Some (Repeated off n (MkMArgs c args)) ->
     key < n -> constructible c args ->
     exists vec acc,
       Block_getattr cls base name = Ok (AVector vec) /\
       Vector_getitem vec key = Ok acc /\
       acc_base acc = base + off + key * x__size c /\
       acc_instance_of acc c).
Proof.
  unfold Block_getattr. split; [|split].
  - intros ->. reflexivity.
  - intros off c args -> Hc. apply construct_ok. exact Hc.
  - intros off n c args key -> Hk Hc.
    destruct (construct_ok c (base + off + key * x__size c) args Hc)
      as (acc & Ha & Hb & Hi).
    eexists. exists acc. split; [reflexivity|].
    unfold Vector_getitem. cbn.
    destruct (Z.leb_spec n key); [lia|]. auto.
Qed.

Lemma Block_field_address_witness :
  Block_getattr demo_c1 12 "nope" = Err KeyError /\
  (exists acc, Block_getattr demo_c1 12 "f2" = Ok acc /\
               acc_base acc = 12 + 11 /\ acc_instance_of acc (BlockClass demo_c2)) /\
  (exists vec acc,
     Block_getattr demo_c1 12 "f1" = Ok (AVector vec) /\
     Vector_getitem vec 4 = Ok acc /\
     acc_base acc = 12 + 0 + 4 * x__size (BlockClass demo_c2) /\
     acc_instance_of acc (BlockClass demo_c2)).
Proof.
  destruct (Block_field_address demo_c1 12 "nope") as (H1 & _ & _).
  destruct (Block_field_address demo_c1 12 "f2") as (_ & H2 & _).
  destruct (Block_field_address demo_c1 12 "f1") as (_ & _ & H3).
  split; [apply H1; reflexivity|]. split.
  - apply (H2 11 (BlockClass demo_c2) None); [reflexivity | exact I].
  - apply (H3 0 10 (BlockClass demo_c2) None 4); [reflexivity | lia | exact I].
Defined.

(** ** More on the identity and version check *)

Lemma dict_get_elem {V} (d : dict V) k v : dict_get d k = Some v -> (k, v) ∈ d.
Proof.
  induction d as [|[k' v'] d IH]; cbn; [discriminate|].
  destruct (String.eqb_spec k k') as [->|Hne].
  - intros [= ->]. apply list_elem_of_here.
  - intros Hg. apply list_elem_of_further. apply IH. exact Hg.
Qed.

Lemma dict_get_key {V} (d : dict V) k :
  k ∈ dict_keys d -> exists v, dict_get d k = Some v.
Proof.
  induction d as [|[k' v'] d IH]; cbn.
  - intros Hin. apply elem_of_nil in Hin. contradiction.
  - intros Hin. destruct (String.eqb_spec k k') as [->|Hne]; [eauto|].
    apply IH. apply elem_of_cons in Hin as [Heq|Hin]; [contradiction | exact Hin].
Qed.

Lemma Block_getattr_constructible cls base k :
  fields_constructible cls -> k ∈ dict_keys (x__fields cls) ->
  exists acc, Block_getattr cls base k = Ok acc.
Proof.
  intros Hall Hin. destruct (dict_get_key _ _ Hin) as [f Hf].
  unfold Block_getattr. rewrite Hf.
  apply dict_get_elem in Hf.
  unfold fields_constructible in Hall. rewrite Forall_forall in Hall.
  specialize (Hall _ Hf). cbn in Hall.
  destruct f as [off [c a]|off n [c a]]; [|eauto].
  destruct (construct_ok c (base + off) a Hall) as (acc & -> & _). eauto.
Qed.

Lemma visit_fields_ok `{Iface St} cls base keys (s : St) :
  fields_constructible cls ->
  (forall k, k ∈ keys -> k ∈ dict_keys (x__fields cls)) ->
  visit_fields cls base keys s = (s, Ok tt).
Proof.
  intros Hall. induction keys as [|k keys IH]; intros Hsub; [reflexivity|].
  cbn. unfold bind, lift.
  destruct (Block_getattr_constructible cls base k Hall) as [acc ->].
  { apply Hsub. apply list_elem_of_here. }
  assert (Hrest : visit_fields cls base keys s = (s, Ok tt)).
  { apply IH. intros k' Hk'. apply Hsub. apply list_elem_of_further. exact Hk'. }
  destruct acc; exact Hrest.
Qed.

(** X16. On any bus, [verify_id_and_version] of a blackbox block whose
    fields can all be instantiated returns normally without a single bus
    call: the state is the one it was given. *)
Theorem verify_blackbox_no_access `{Iface St} (cls : BlockDef) (base : Z) (s : St) :
  x__is_blackbox cls = true ->
  fields_constructible cls ->
  verify_id_and_version cls base s = (s, Ok tt).
Proof.
  intros Hbb Hall. unfold verify_id_and_version, bind.
  rewrite (visit_fields_ok cls base _ s Hall (fun k Hk => Hk)), Hbb. reflexivity.
Qed.

Lemma verify_blackbox_no_access_witness :
  verify_id_and_version EXTERN 40 [CallRead 0] = ([CallRead 0], Ok tt).
Proof.
  apply (verify_blackbox_no_access EXTERN 40 [CallRead 0]).
  - reflexivity.
  - repeat constructor.
Defined.

(** X17. For a block that is not a blackbox, with registers [ID] and
    [VER] inside the register file and a queue that can run, the check
    flushes the queue, reads [ID] and compares it with [x__id], and only
    if they are equal reads [VER] and compares it with [x__ver]: it
    returns normally exactly when both are equal, and raises the
    mismatch error otherwise, after the [ID] read alone when the [ID] is
    wrong. *)
Theorem verify_own_id_then_ver (depth : nat) (cls : BlockDef) (base : Z)
    (oi ov : Z) (ki kv : RegClass) (ai av : option (dict BitField))
    (i j : nat) (s : DemoIface) :
  let I := DemoIface_Iface depth in
  x__is_blackbox cls = false ->
  fields_constructible cls ->
  dict_get (x__fields cls) "ID" = Some (Single oi (MkMArgs (RegisterClass ki) ai)) ->
  dict_get (x__fields cls) "VER" = Some (Single ov (MkMArgs (RegisterClass kv) av)) ->
  ready s ->
  index_of (length (rf s)) (base + oi) = Some i ->
  index_of (length (rf s)) (base + ov) = Some j ->
  exists s2 idv verv,
    flush depth s = (s2, Ok tt) /\ rf s2 !! i = Some idv /\ rf s2 !! j = Some verv /\
    verify_id_and_version cls base s =
    if idv =? x__id cls then
      (print (Reading (base + ov) verv) (print (Reading (base + oi) idv) s2),
       if verv =? x__ver cls then Ok tt else Err IdentityMismatch)
    else (print (Reading (base + oi) idv) s2, Err IdentityMismatch).
Proof.
  intros I Hbb Hall Hid Hver Hr Hi Hj. subst I.
  destruct (flush_effect depth s Hr) as (s2 & Hf & Hq & _ & _ & He).
  assert (Hl : length (rf s2) = length (rf s)).
  { replace (rf s2) with (snd (effect (opers s ++ pending_write s) (futures s) (rf s)))
      by (rewrite <- He; reflexivity).
    apply (proj2 (effect_lengths _ _ _)). }
  assert (Hi2 : py_index (rf s2) (base + oi) = Some i)
    by (unfold py_index; rewrite Hl; exact Hi).
  assert (Hj2 : py_index (rf s2) (base + ov) = Some j)
    by (unfold py_index; rewrite Hl; exact Hj).
  destruct (_read_in_range _ s2 i Hi2) as (idv & Hidv & Hrd1).
  destruct (_read_in_range _ s2 j Hj2) as (verv & Hverv & _).
  exists s2, idv, verv. split; [exact Hf|]. split; [exact Hidv|]. split; [exact Hverv|].
  unfold verify_id_and_version, bind at 1.
  rewrite (visit_fields_ok (H := DemoIface_Iface depth) cls base _ s Hall
             (fun k Hk => Hk)), Hbb.
  assert (Ha1 : Block_getattr cls base "ID" =
                Ok (ARegister (MkRegister ki (base + oi)
                                 (match ai with Some t => t | None => [] end)))).
  { unfold Block_getattr. rewrite Hid. destruct ai; reflexivity. }
  assert (Ha2 : Block_getattr cls base "VER" =
                Ok (ARegister (MkRegister kv (base + ov)
                                 (match av with Some t => t | None => [] end)))).
  { unfold Block_getattr. rewrite Hver. destruct av; reflexivity. }
  unfold Block_verify_id, Block_verify_ver, bind, lift. rewrite Ha1, Ha2.
  cbn [Accessor_read Register_read reg_base iface_read DemoIface_Iface].
  rewrite (read_after_flush depth _ s s2 Hf), Hrd1.
  destruct (idv =? x__id cls); [|reflexivity].
  cbn [ret].
  assert (Hq1 : quiescent (print (Reading (base + oi) idv) s2))
    by (destruct Hq; split; assumption).
  rewrite (read_after_flush depth _ _ _ (flush_quiescent depth _ Hq1)).
  unfold Demo._read. cbn [rf print]. rewrite Hj2, Hverv.
  destruct (verv =? x__ver cls); reflexivity.
Qed.

Lemma verify_own_id_then_ver_witness :
  let I := DemoIface_Iface 0 in
  exists s2 idv verv,
    flush 0 (DemoIface_init rf_bad_link) = (s2, Ok tt) /\
    rf s2 !! 2%nat = Some idv /\ rf s2 !! 3%nat = Some verv /\
    verify_id_and_version LINK 2 (DemoIface_init rf_bad_link) =
    if idv =? x__id LINK then
      (print (Reading (2 + 1) verv) (print (Reading (2 + 0) idv) s2),
       if verv =? x__ver LINK then Ok tt else Err IdentityMismatch)
    else (print (Reading (2 + 0) idv) s2, Err IdentityMismatch).
Proof.
  apply (verify_own_id_then_ver 0 LINK 2 0 1 StatusRegister StatusRegister None None
           2%nat 3%nat (DemoIface_init rf_bad_link)).
  - reflexivity.
  - repeat constructor.
  - reflexivity.
  - reflexivity.
  - reflexivity.
  - reflexivity.
  - reflexivity.
Defined.

(** ** Two requests to one register *)

(** X19. On an interface whose RMW attributes are as [__init__] left
    them, two [reg.rmw] calls for one register (the first with
    [now=False]) are merged, the later request winning where the masks
    overlap: the next [read] returns
    [(X & ~(m1|m2)) | (v1 & m1 & ~m2) | (v2 & m2)], [X] being what [read]
    would have returned without them, after one read and one write of
    the register. *)
Theorem register_rmw_pair_then_read (depth : nat) (r : Register)
    (m1 v1 m2 v2 : Z) (now : bool) (s : DemoIface) :
  let I := DemoIface_Iface depth in
  rmw_clear s -> ready s ->
  is_Some (index_of (length (rf s)) (reg_base r)) ->
  exists old s1 s2,
    Demo.read depth (reg_base r) s = (s1, Ok old) /\
    bind (Register_rmw r m1 v1 false)
         (fun _ => bind (Register_rmw r m2 v2 now)
                        (fun _ => Demo.read depth (reg_base r))) s =
      (s2, Ok (Z.lor (Z.lor (Z.land old (Z.lnot (Z.lor m1 m2)))
                            (Z.land (Z.land v1 m1) (Z.lnot m2)))
                     (Z.land v2 m2))) /\
    bus_accesses (stdout s2) =
      bus_accesses (stdout s) ++ map oper_access (opers s)
        ++ [Load (reg_base r); Store (reg_base r); Load (reg_base r)].
Proof.
  intros I (Hidle & Hm & Hn) Hr [i Hi]. subst I.
  set (a := reg_base r).
  set (M := Z.lor (Z.lor 0 m1) m2).
  set (N := Z.lor (Z.lxor (Z.lor (Z.lor (Z.lxor (Z.lor 0 m1) m1) (Z.land v1 m1)) m2) m2)
                  (Z.land v2 m2)).
  assert (Hpair : exists t,
            bind (Register_rmw (H := DemoIface_Iface depth) r m1 v1 false)
                 (fun _ => Register_rmw (H := DemoIface_Iface depth) r m2 v2 now) s
              = (t, Ok tt) /\
            rf t = rf s /\ futures t = futures s ++ [None] /\ stdout t = stdout s /\
            opers t ++ pending_write t =
              opers s ++ [OpReadSet (length (futures s)) a;
                          OpRmw (Some (length (futures s))) a M N]).
  { unfold Register_rmw. cbn [iface_rmw DemoIface_Iface]. fold a.
    unfold bind, ret.
    rewrite (rmw_idle s a _ _ Hidle), Hm, Hn.
    rewrite rmw_same by reflexivity. cbn [rmw_mask rmw_nval set_rmw_acc].
    fold M. fold N.
    destruct now.
    - rewrite rmw_finalize. eexists. split; [reflexivity|].
      unfold finalized, pending_write. cbn.
      repeat split. rewrite <- !app_assoc. reflexivity.
    - eexists. split; [reflexivity|].
      unfold pending_write. cbn.
      repeat split. rewrite <- !app_assoc. reflexivity. }
  destruct Hpair as (t & Hprog & Hrf & Hfu & Hso & Hq).
  destruct (read_after_aggregated depth s t a i M N Hr Hidle Hi Hrf Hfu Hq)
    as (old & s1 & s2 & H1 & H2 & H3).
  exists old, s1, s2. split; [exact H1|]. split.
  - revert Hprog. unfold bind.
    destruct (Register_rmw (H := DemoIface_Iface depth) r m1 v1 false s)
      as [s' [[]|e]]; [|discriminate].
    intros ->. rewrite H2. unfold M, N. rewrite merged_word. reflexivity.
  - rewrite H3, Hso. reflexivity.
Qed.

Lemma register_rmw_pair_then_read_witness :
  let I := DemoIface_Iface 0 in
  exists old s1 s2,
    Demo.read 0 13 (DemoIface_init rf0) = (s1, Ok old) /\
    bind (Register_rmw status_r1 0xFF 0x12 false)
         (fun _ => bind (Register_rmw status_r1 0x0F 0x0A true)
                        (fun _ => Demo.read 0 13)) (DemoIface_init rf0) =
      (s2, Ok (Z.lor (Z.lor (Z.land old (Z.lnot (Z.lor 0xFF 0x0F)))
                            (Z.land (Z.land 0x12 0xFF) (Z.lnot 0x0F)))
                     (Z.land 0x0A 0x0F))) /\
    bus_accesses (stdout s2) = [Load 13; Store 13; Load 13].
Proof.
  apply (register_rmw_pair_then_read 0 status_r1 0xFF 0x12 0x0F 0x0A true
           (DemoIface_init rf0)).
  - repeat split.
  - reflexivity.
  - exists 13%nat. reflexivity.
Defined.

(** ** Invariants of the interface in use *)

Lemma api_run_ready depth cs : forall s,
  ready s -> Forall (api_in_range (length (rf s))) cs ->
  ready (api_run depth cs s) /\
  length (rf (api_run depth cs s)) = length (rf s).
Proof.
  induction cs as [|c cs IH]; intros s Hr Hall; [split; [exact Hr | reflexivity]|].
  apply Forall_cons in Hall as [Hc Hall].
  destruct (ready_kept depth c s Hr Hc) as [Hr' Hl].
  cbn. destruct (IH (api_step depth c s) Hr') as [H1 H2].
  - rewrite Hl. exact Hall.
  - split; [exact H1 | congruence].
Qed.

(** X18. After any sequence of calls ([read], [write], [readx],
    [writex], [rmw], finalization, [dispatch], [.val]) on a new
    interface, all with addresses inside the register file, the queue
    can still run: [dispatch()] returns normally and empties it, and
    [read] of any address inside the register file returns a value; the
    register file has kept its size. *)
Theorem in_range_calls_never_break_the_queue (depth : nat) (regs : list Z)
    (cs : list api_call) (a : Z) :
  Forall (api_in_range (length regs)) cs ->
  is_Some (index_of (length regs) a) ->
  let s := api_run depth cs (DemoIface_init regs) in
  ready s /\ length (rf s) = length regs /\
  (exists s', Demo.dispatch depth s = (s', Ok tt) /\ opers s' = []) /\
  (exists s' v, Demo.read depth a s = (s', Ok v)).
Proof.
  intros Hall [i Hi] s.
  destruct (api_run_ready depth cs (DemoIface_init regs) (ready_init regs) Hall)
    as [Hr Hl].
  fold s in Hr, Hl. cbn in Hl.
  split; [exact Hr|]. split; [exact Hl|]. split.
  - pose proof Hr as Hr0. unfold ready in Hr0. rewrite runnable_app in Hr0.
    apply andb_true_iff in Hr0 as [Hq _].
    destruct (dispatch_effect depth s Hq) as (s' & Hd & Ho & _). eauto.
  - destruct (read_ready depth s a i Hr) as (s' & Hrd); [rewrite Hl; exact Hi|].
    eauto.
Qed.

Lemma in_range_calls_never_break_the_queue_witness :
  let s := api_run 0 demo_calls (DemoIface_init rf0) in
  ready s /\ length (rf s) = length rf0 /\
  (exists s', Demo.dispatch 0 s = (s', Ok tt) /\ opers s' = []) /\
  (exists s' v, Demo.read 0 1023 s = (s', Ok v)).
Proof.
  apply (in_range_calls_never_break_the_queue 0 rf0 demo_calls 1023).
  - unfold demo_calls.
    repeat (apply Forall_cons; split; [cbn; first [exact I | eexists; reflexivity]|]).
    apply Forall_nil. exact I.
  - eexists. reflexivity.
Defined.

Lemma rmw_within_bits m n :
  rmw_within m n <->
  forall j, 0 <= j -> Z.testbit n j = true -> Z.testbit m j = true.
Proof.
  unfold rmw_within. split.
  - intros H0 j Hj Hn.
    assert (Hb : Z.testbit (Z.land n (Z.lnot m)) j = false)
      by (rewrite H0; apply Z.bits_0).
    rewrite Z.land_spec, Z.lnot_spec, Hn in Hb by exact Hj.
    destruct (Z.testbit m j); [reflexivity | discriminate Hb].
  - intros Hb. apply Z.bits_inj'. intros j Hj.
    rewrite Z.land_spec, Z.lnot_spec, Z.bits_0 by exact Hj.
    destruct (Z.testbit n j) eqn:En; [|reflexivity].
    rewrite (Hb j Hj En). reflexivity.
Qed.

Lemma rmw_within_clear : rmw_within 0 0.
Proof. reflexivity. Qed.

Lemma merge_within mk nk M val :
  rmw_within mk nk ->
  rmw_within (Z.lor mk M) (Z.lor (Z.lxor (Z.lor nk M) M) (Z.land val M)).
Proof.
  rewrite !rmw_within_bits. intros Hb j Hj.
  repeat first [ rewrite Z.lor_spec | rewrite Z.lxor_spec | rewrite Z.land_spec ].
  specialize (Hb j Hj).
  destruct (Z.testbit nk j), (Z.testbit M j), (Z.testbit val j), (Z.testbit mk j);
    cbn; intros H1; try reflexivity; try discriminate H1; apply Hb; reflexivity.
Qed.

Lemma rmw_word_outside v m n j :
  rmw_within m n -> 0 <= j -> Z.testbit m j = false ->
  Z.testbit (Demo.rmw_word v m n) j = Z.testbit v j.
Proof.
  rewrite rmw_within_bits. intros Hb Hj Hm. unfold Demo.rmw_word.
  rewrite Z.lor_spec, Z.lxor_spec, Z.lor_spec, Hm.
  destruct (Z.testbit n j) eqn:En.
  - rewrite (Hb j Hj En) in Hm. discriminate Hm.
  - rewrite orb_false_r, xorb_false_r, orb_false_r. reflexivity.
Qed.

Lemma within_pending s : within s -> Forall oper_within (opers s ++ pending_write s).
Proof.
  intros [Hacc Hops]. apply Forall_app. split; [exact Hops|].
  unfold pending_write. destruct (rmw_addr s); repeat constructor. exact Hacc.
Qed.

Lemma within_finalized s : within s -> within (finalized s).
Proof.
  intros Hw. pose proof (within_pending s Hw) as Hp. destruct Hw as [Hacc _].
  split.
  - unfold finalized. destruct (rmw_addr s); exact Hacc.
  - rewrite finalized_opers. exact Hp.
Qed.

Lemma within_rmw s a m v : within s -> within (fst (Demo.rmw (Some a) m v s)).
Proof.
  intros [Hacc Hops]. destruct (rmw_addr s) as [A|] eqn:Ec.
  - destruct (decide (a = A)) as [->|Hne].
    + rewrite (rmw_same s A m v Ec). split; cbn.
      * apply merge_within. exact Hacc.
      * exact Hops.
    + rewrite (rmw_divert s A a m v Ec Hne). split; cbn.
      * apply merge_within. exact Hacc.
      * apply Forall_app. split; [exact Hops|]. repeat constructor. exact Hacc.
  - rewrite (rmw_idle s a m v Ec). split; cbn.
    + apply merge_within. exact Hacc.
    + apply Forall_app. split; [exact Hops|]. repeat constructor.
Qed.

Lemma within_quiescent s m n :
  quiescent s -> rmw_mask s = m -> rmw_nval s = n -> rmw_within m n -> within s.
Proof.
  intros [Ho _] <- <- Hacc. split; [exact Hacc|]. rewrite Ho. constructor.
Qed.

Lemma within_step depth c s :
  ready s -> within s -> within (api_step depth c s).
Proof.
  intros Hr Hw. pose proof Hw as [Hacc Hops].
  destruct c as [a|a v|a|a v|a m v| | |df]; cbn.
  - destruct (flush_effect depth s Hr) as (s2 & Hf & Hq & Hm & Hn & _).
    rewrite (read_after_flush depth a s s2 Hf). unfold Demo._read.
    destruct (py_index (rf s2) a) as [i|]; [destruct (rf s2 !! i)|]; cbn;
      apply (within_quiescent _ (rmw_mask s) (rmw_nval s));
      (exact Hq || assumption).
  - destruct (flush_effect depth s Hr) as (s2 & Hf & Hq & Hm & Hn & _).
    rewrite (write_after_flush depth a _ s s2 Hf). unfold Demo._write. cbn.
    destruct (py_index (rf s2) a) as [i|]; cbn;
      apply (within_quiescent _ (rmw_mask s) (rmw_nval s));
      (exact Hq || assumption).
  - unfold Demo.readx, bind. rewrite rmw_finalize.
    unfold Demo.new_future, Demo.append_oper, ret. cbn.
    destruct (within_finalized s Hw) as [Ha Ho]. split; cbn; [exact Ha|].
    apply Forall_app. split; [exact Ho|]. repeat constructor.
  - unfold Demo.writex, bind. rewrite rmw_finalize. unfold Demo.append_oper. cbn.
    destruct (within_finalized s Hw) as [Ha Ho]. split; cbn; [exact Ha|].
    apply Forall_app. split; [exact Ho|]. repeat constructor.
  - apply within_rmw. exact Hw.
  - rewrite rmw_finalize. apply within_finalized. exact Hw.
  - pose proof Hr as Hr0. unfold ready in Hr0. rewrite runnable_app in Hr0.
    apply andb_true_iff in Hr0 as [Hq _].
    destruct (dispatch_effect depth s Hq) as (s' & -> & Ho & _ & _ & Hm & Hn & _).
    cbn. split; [rewrite Hm, Hn; exact Hacc | rewrite Ho; constructor].
  - unfold Demo.val, Demo.DI_future_val.
    destruct (future_done s df); [exact Hw|].
    pose proof Hr as Hr0. unfold ready in Hr0. rewrite runnable_app in Hr0.
    apply andb_true_iff in Hr0 as [Hq _].
    destruct (dispatch_effect depth s Hq) as (s' & Hd & Ho & _ & _ & Hm & Hn & _).
    unfold bind. rewrite Hd.
    destruct (future_done s' df); cbn;
      (split; [rewrite Hm, Hn; exact Hacc | rewrite Ho; constructor]).
Qed.

Lemma api_run_within depth cs : forall s,
  ready s -> within s -> Forall (api_in_range (length (rf s))) cs ->
  within (api_run depth cs s).
Proof.
  induction cs as [|c cs IH]; intros s Hr Hw Hall; [exact Hw|].
  apply Forall_cons in Hall as [Hc Hall].
  destruct (ready_kept depth c s Hr Hc) as [Hr' Hl].
  cbn. apply IH; [exact Hr' | apply within_step; assumption |].
  rewrite Hl. exact Hall.
Qed.

(** X20. The value accumulated for an RMW never has a bit outside the
    accumulated mask.  So, after any sequence of calls with addresses
    inside the register file on a new interface, every RMW write that is
    queued or pending leaves the bits of the register outside its mask
    as its baseline read found them. *)
Theorem rmw_writes_stay_inside_mask (depth : nat) (regs : list Z)
    (cs : list api_call) :
  Forall (api_in_range (length regs)) cs ->
  let s := api_run depth cs (DemoIface_init regs) in
  Z.land (rmw_nval s) (Z.lnot (rmw_mask s)) = 0 /\
  forall odf a m n,
    OpRmw odf a m n ∈ opers s ++ pending_write s ->
    forall v j, 0 <= j -> Z.testbit m j = false ->
                Z.testbit (Demo.rmw_word v m n) j = Z.testbit v j.
Proof.
  intros Hall s.
  assert (Hw : within s).
  { apply api_run_within; [apply ready_init | | exact Hall].
    split; [apply rmw_within_clear | constructor]. }
  split; [exact (proj1 Hw)|].
  intros odf a m n Hin v j Hj Hm.
  pose proof (within_pending s Hw) as Hp. rewrite Forall_forall in Hp.
  apply (rmw_word_outside v m n j (Hp _ Hin) Hj Hm).
Qed.

Lemma rmw_writes_stay_inside_mask_witness :
  let s := api_run 0 demo_calls (DemoIface_init rf0) in
  Z.land (rmw_nval s) (Z.lnot (rmw_mask s)) = 0.
Proof.
  apply (rmw_writes_stay_inside_mask 0 rf0 demo_calls).
  unfold demo_calls.
  repeat (apply Forall_cons; split; [cbn; first [exact I | eexists; reflexivity]|]).
  apply Forall_nil. exact I.
Defined.

(** ** Futures of a bitfield *)

(** X21. The deferred bitfield read agrees with the immediate one:
    [readx()] on a bitfield view followed by [.val] on the object it
    returned gives the value [read()] on the view gives in the same
    state. *)
Theorem bitfield_readx_val_agrees_with_read (depth : nat) (a : BitFieldAccess)
    (s : DemoIface) :
  let I := DemoIface_Iface depth in
  ready s -> is_Some (index_of (length (rf s)) (bfa_base a)) ->
  exists v s1 s2,
    bind (BitFieldAccess_readx a) BitFieldFuture_val s = (s1, Ok v) /\
    BitFieldAccess_read a s = (s2, Ok v).
Proof.
  intros I Hr Hi. subst I.
  destruct (readx_val_read depth s (bfa_base a) Hr Hi) as (w & s1 & s2 & H1 & H2 & _).
  exists (decode (x__bf a) w), s1, s2. split.
  - unfold BitFieldAccess_readx, BitFieldFuture_val, bind, ret.
    cbn [iface_readx future_val DemoIface_Iface].
    unfold bind in H1.
    destruct (Demo.readx (bfa_base a) s) as [t [df|e]]; [|discriminate H1].
    cbn [fst snd]. rewrite H1. reflexivity.
  - unfold BitFieldAccess_read, bind, ret. cbn [iface_read DemoIface_Iface].
    rewrite H2. reflexivity.
Qed.

Lemma bitfield_readx_val_agrees_with_read_witness :
  let I := DemoIface_Iface 0 in
  exists v s1 s2,
    bind (BitFieldAccess_readx (MkBitFieldAccess 3 field_u_9_4))
         BitFieldFuture_val busy_state = (s1, Ok v) /\
    BitFieldAccess_read (MkBitFieldAccess 3 field_u_9_4) busy_state = (s2, Ok v).
Proof.
  apply (bitfield_readx_val_agrees_with_read 0 (MkBitFieldAccess 3 field_u_9_4)
           busy_state).
  - vm_compute. reflexivity.
  - exists 3%nat. reflexivity.
Defined.

(** ** A queued access that cannot run *)

Lemma covers_res_after xs : forall res, covers res (res_after res xs).
Proof.
  induction xs as [|x xs IH]; intros res; [apply covers_refl|].
  split; [rewrite res_after_length; lia|].
  intros d Hd. apply res_after_keeps. exact Hd.
Qed.

Lemma call_out_of_range nested x a s :
  plain_access x a -> index_of (length (rf s)) a = None ->
  exists s', Demo.call nested x s = (s', Err IndexError) /\
             same_control s s' /\ futures s' = futures s.
Proof.
  intros [[v ->]|[df ->]] Ha; cbn.
  - unfold Demo._write, py_index. cbn. rewrite Ha.
    eexists. split; [reflexivity|]. split; [repeat split | reflexivity].
  - unfold bind, Demo._read, py_index. rewrite Ha.
    eexists. split; [reflexivity|]. split; [repeat split | reflexivity].
Qed.

Lemma dispatch_blocked depth s pre x post a :
  opers s = pre ++ x :: post ->
  runnable (length (rf s)) (resolved (futures s)) pre = true ->
  plain_access x a -> index_of (length (rf s)) a = None ->
  exists s',
    Demo.dispatch depth s = (s', Err IndexError) /\
    opers s' = opers s /\ length (rf s') = length (rf s) /\
    rmw_addr s' = rmw_addr s /\
    runnable (length (rf s')) (resolved (futures s')) pre = true.
Proof.
  intros Ho Hpre Hx Ha. rewrite dispatch_unfold. unfold Demo.dispatch_body.
  destruct (opers s) as [|y ys] eqn:Eo.
  { destruct pre; discriminate Ho. }
  rewrite Ho.
  destruct (run_runnable (nested_dispatch depth) pre (print BeforeDispatch s) Hpre)
    as (s1 & Hrun & Hs1 & _ & _ & Hres).
  destruct Hs1 as (Ho1 & _ & Ha1 & _ & _ & Hl1). cbn in Ho1, Ha1, Hl1, Hres.
  destruct (call_out_of_range (nested_dispatch depth) x a s1 Hx)
    as (s2 & Hc & Hs2 & Hf2); [rewrite Hl1; exact Ha|].
  destruct Hs2 as (Ho2 & _ & Ha2 & _ & _ & Hl2).
  exists s2. split.
  - unfold bind. rewrite run_app. unfold bind. rewrite Hrun. cbn [Demo.run].
    unfold bind. rewrite Hc. reflexivity.
  - split; [congruence|]. split; [congruence|]. split; [congruence|].
    rewrite Hl2, Hl1, Hf2, Hres. cbn [rf futures print].
    apply (runnable_mono _ _ _ _ (covers_res_after pre _) Hpre).
Qed.

(** X22. An address outside the register file that has been queued (by
    [writex] or [readx]) blocks the interface: if the operations queued
    before it can run, [dispatch()] raises IndexError at it and keeps the
    whole queue, so every later [dispatch()] and every later [read] and
    [write] raises IndexError again. *)
Theorem out_of_range_access_blocks_queue (depth : nat) (s : DemoIface)
    (pre post : list oper) (x : oper) (a b : Z) (val : pyval) (k : nat) :
  opers s = pre ++ x :: post ->
  runnable (length (rf s)) (resolved (futures s)) pre = true ->
  plain_access x a -> index_of (length (rf s)) a = None ->
  rmw_addr s = None ->
  let s' := redispatch depth k s in
  opers s' = opers s /\
  snd (Demo.dispatch depth s') = Err IndexError /\
  snd (Demo.read depth b s') = Err IndexError /\
  snd (Demo.write depth b val s') = Err IndexError.
Proof.
  intros Ho Hpre Hx Ha Hidle. cbv zeta.
  assert (Hinv : opers (redispatch depth k s) = opers s /\
                 runnable (length (rf (redispatch depth k s)))
                          (resolved (futures (redispatch depth k s))) pre = true /\
                 length (rf (redispatch depth k s)) = length (rf s) /\
                 rmw_addr (redispatch depth k s) = None).
  { clear b val. revert s Ho Hpre Ha Hidle.
    induction k as [|k IH]; intros s Ho Hpre Ha Hidle; [cbn; auto|].
    destruct (dispatch_blocked depth s pre x post a Ho Hpre Hx Ha)
      as (s1 & Hd & Ho1 & Hl1 & Ha1 & Hr1).
    cbn [redispatch]. rewrite Hd. cbn [fst].
    destruct (IH s1) as (H1 & H2 & H3 & H4); try congruence.
    repeat split; congruence. }
  destruct Hinv as (Hok & Hrk & Hlk & Hak).
  set (t := redispatch depth k s) in *.
  destruct (dispatch_blocked depth t pre x post a) as (t1 & Hd & _);
    [congruence | exact Hrk | exact Hx | congruence |].
  assert (Hfl : flush depth t = (t1, Err IndexError)).
  { unfold flush, bind. rewrite rmw_finalize. unfold finalized. rewrite Hak.
    unfold Demo.dispatch_if_opers. rewrite Hok, Ho.
    destruct (pre ++ x :: post) eqn:Eq; [destruct pre; discriminate Eq|].
    exact Hd. }
  split; [exact Hok|]. split; [rewrite Hd; reflexivity|].
  rewrite read_flush, write_flush. unfold bind. rewrite Hfl. split; reflexivity.
Qed.

Lemma out_of_range_access_blocks_queue_witness :
  let s := fst (Demo.writex 2000 (VInt 1) (DemoIface_init rf0)) in
  let s' := redispatch 0 3 s in
  opers s' = opers s /\
  snd (Demo.dispatch 0 s') = Err IndexError /\
  snd (Demo.read 0 5 s') = Err IndexError /\
  snd (Demo.write 0 5 (VInt 9) s') = Err IndexError.
Proof.
  apply (out_of_range_access_blocks_queue 0
           (fst (Demo.writex 2000 (VInt 1) (DemoIface_init rf0)))
           [] [] (OpWrite 2000 (VInt 1)) 2000 5 (VInt 9) 3).
  - reflexivity.
  - reflexivity.
  - left. exists 1. reflexivity.
  - reflexivity.
  - reflexivity.
Defined.
